(** * NeuroSynth extension: metadata naming, list aggregation and the status gate

    A shallow embedding of [neurosynthplus/src/metaplus.py] ([NsInfo],
    [MetaAnalysisPlus.Info], [MetaAnalysisPlus.mean],
    [MetaAnalysisPlus.conjunction]) and of [neurosynthplus/gui/globals.py]
    ([Global._update_status], [Global.update_status]), with the properties the
    specification states about them.

    Conventions of the embedding:
    - Python [str] is [string]; a [dict] keyed by strings is a [gmap string _];
      an [OrderedDict] is an association list kept free of duplicate keys.
    - A Python number (a threshold, a voxel value) is the rational [Q] it
      denotes, which leaves out NaN and the infinities; comparisons of floats
      are exact, so they are those of [Q], while numpy's rounding addition and
      division are parameters of [mean]. Voxel arrays are [list Q] (the
      masked, one-dimensional volume).
    - Objects with identity ([MetaAnalysisPlus], [Info]) live in a heap indexed
      by locations; a Python reference is a location.
    - A call that can raise returns a [result]; the heap is threaded through
      the state-and-exception monad [M]. *)

From Stdlib Require Import Ascii String QArith.
From stdpp Require Import base option list strings gmap.

(** ** Python primitives used by the sources *)

Module Py.

(** Exceptions the modelled code can raise. *)
Inductive exn : Type :=
| ValueError (msg : string)
| KeyError (key : string)
| IndexError
| TypeError
| AttributeError (attr : string).

Inductive result (A : Type) : Type :=
| Ok (a : A)
| Raise (e : exn).
Arguments Ok {A} a.
Arguments Raise {A} e.

#[global] Instance result_ret : MRet result := @Ok.
#[global] Instance result_bind : MBind result := λ A B k r,
  match r with
  | Ok a => k a
  | Raise e => Raise e
  end.

(** [c in chars] for a one-character string [c]. *)
Fixpoint char_in (c : ascii) (chars : string) : bool :=
  match chars with
  | EmptyString => false
  | String d chars' => if Ascii.eqb c d then true else char_in c chars'
  end.

(** [s.lstrip(chars)] *)
Fixpoint lstrip (chars s : string) : string :=
  match s with
  | EmptyString => EmptyString
  | String c s' => if char_in c chars then lstrip chars s' else s
  end.

(** [s.rstrip(chars)] *)
Fixpoint rstrip (chars s : string) : string :=
  match s with
  | EmptyString => EmptyString
  | String c s' =>
      match rstrip chars s' with
      | EmptyString => if char_in c chars then EmptyString else String c EmptyString
      | r => String c r
      end
  end.

(** [s.strip(chars)]: both ends. *)
Definition strip (chars s : string) : string := rstrip chars (lstrip chars s).

(** [s.partition(sep)] for a one-character separator, [None] when [sep] does
    not occur: the text before the first [sep] and the text after it. *)
Fixpoint partition_char (sep : ascii) (s : string) : option (string * string) :=
  match s with
  | EmptyString => None
  | String c s' =>
      if Ascii.eqb c sep then Some (EmptyString, s')
      else match partition_char sep s' with
           | Some (before, after) => Some (String c before, after)
           | None => None
           end
  end.

(** [s.split(sep, maxsplit)] for a one-character separator and
    [maxsplit >= 0]: at most [maxsplit] cuts, from the left. *)
Fixpoint split (sep : ascii) (maxsplit : nat) (s : string) : list string :=
  match maxsplit with
  | O => [s]
  | S k =>
      match partition_char sep s with
      | None => [s]
      | Some (before, after) => before :: split sep k after
      end
  end.

(** [x is None] *)
Definition is_none {A} (x : option A) : bool :=
  match x with
  | None => true
  | Some _ => false
  end.

(** [l[0]] *)
Definition index0 {A} (l : list A) : result A :=
  match l with
  | [] => Raise IndexError
  | x :: _ => Ok x
  end.

(** [pat in s] on strings: [pat] occurs as a contiguous substring. *)
Fixpoint str_contains (pat s : string) : bool :=
  if String.prefix pat s then true
  else match s with
       | EmptyString => false
       | String _ s' => str_contains pat s'
       end.

(** [s[n:]] *)
Fixpoint slice_from (n : nat) (s : string) : string :=
  match n, s with
  | O, _ => s
  | S n', String _ s' => slice_from n' s'
  | S _, EmptyString => EmptyString
  end.

(** [s[:n]] *)
Fixpoint slice_to (n : nat) (s : string) : string :=
  match n, s with
  | S n', String c s' => String c (slice_to n' s')
  | _, _ => EmptyString
  end.

Fixpoint spaces (n : nat) : string :=
  match n with
  | O => EmptyString
  | S n' => String " " (spaces n')
  end.

(** [s.ljust(width)] *)
Definition ljust (width : nat) (s : string) : string :=
  s +:+ spaces (width - String.length s).

(** [string.punctuation]; the double quote (code 34) is spelled by its code. *)
Definition punctuation : string :=
  "!" +:+ String (ascii_of_nat 34) "#$%&'()*+,-./:;<=>?@[\]^_`{|}~".

End Py.
Export Py.

(** ** [NsInfo]: information strings *)

Module NsInfo.

Definition img_names : list string :=
  ["pA"; "pAgF"; "pFgA"; "uniformity-test_z"; "association-test_z"].
Definition prior_img_names : list string :=
  ["pAgF_given_pF="; "pFgA_given_pF="].
Definition fdr_img_names : list string :=
  ["uniformity-test_z_FDR_"; "association-test_z_FDR_"].

(** [shorten_expr]: [expr.split(' ', maxsplit=1)[0].strip(punctuation)]. *)
Definition shorten_expr (expr : string) : result string :=
  abbr ← index0 (split " " 1 expr);
  Ok (strip punctuation abbr).

Section Builtins.
(** The builtin [float(s)]: [None] stands for the [ValueError] it raises on a
    string that is not a number. *)
Context (py_float : string -> option Q).

Definition float (s : string) : result Q :=
  match py_float s with
  | Some x => Ok x
  | None => Raise (ValueError "could not convert string to float")
  end.

(** [get_num_from_img_name]; each [for ... if ... return] loop is the first
    list element that passes the test. *)
Definition get_num_from_img_name (image_name : string) : result (gmap string Q) :=
  if bool_decide (image_name ∈ img_names) then Ok ∅
  else
    match List.find (fun prior_name => str_contains prior_name image_name) prior_img_names with
    | Some prior_name =>
        num ← float (slice_from (String.length prior_name) image_name);
        Ok {[ "prior" := num ]}
    | None =>
        match List.find (fun fdr_name => str_contains fdr_name image_name) fdr_img_names with
        | Some fdr_name =>
            num ← float (slice_from (String.length fdr_name) image_name);
            Ok {[ "fdr" := num ]}
        | None => Ok ∅
        end
    end.
End Builtins.

End NsInfo.

(** ** [OrderedDict] and the [Info] naming rule *)

Module Info.

(** The scalar values an information mapping holds: text or a number. *)
Inductive scalar : Type :=
| SStr (s : string)
| SNum (q : Q).

(** An [OrderedDict] with string keys: pairs in insertion order, one per key. *)
Definition odict : Type := list (string * scalar).

(** [key in d] and [d[key]]: the entry of [key], if any. *)
Fixpoint od_get (key : string) (d : odict) : option scalar :=
  match d with
  | [] => None
  | (k, v) :: d' => if String.eqb k key then Some v else od_get key d'
  end.

(** [d[key] = v]: a present key keeps its position, a new key goes last. *)
Fixpoint od_set (key : string) (v : scalar) (d : odict) : odict :=
  match d with
  | [] => [(key, v)]
  | (k, w) :: d' =>
      if String.eqb k key then (k, v) :: d' else (k, w) :: od_set key v d'
  end.

(** [OrderedDict(pairs)] *)
Definition od_of_pairs (pairs : list (string * scalar)) : odict :=
  fold_left (fun d kv => od_set kv.1 kv.2 d) pairs [].

(** [NsInfo.shorten_expr(v)] on a dictionary value: only text has [split]. *)
Definition shorten_value (v : scalar) : result string :=
  match v with
  | SStr s => NsInfo.shorten_expr s
  | SNum _ => Raise (AttributeError "split")
  end.

(** [Info.get_shorthand] *)
Definition get_shorthand (self : odict) : result string :=
  match od_get "expression" self with
  | Some e =>
      name ← shorten_value e;
      match od_get "contrary expression" self with
      | Some c =>
          contrary ← shorten_value c;
          Ok (name +:+ "_vs_" +:+ contrary)
      | None => Ok name
      end
  | None => Ok ""
  end.

(** An [Info] object: its entries and its [name] attribute. *)
Record t : Type := mk { items : odict; name : string }.

(** [Info.__init__] up to allocation: the entries, then the derived name. *)
Definition init (pairs : list (string * scalar)) : result t :=
  let d := od_of_pairs pairs in
  name ← get_shorthand d;
  Ok (mk d name).

(** [Info.set_name] *)
Definition set_name (new_name : string) (self : t) : t :=
  mk (items self) new_name.

End Info.

(** ** The numpy operations the aggregations use *)

Module Np.

(** [x < y] on numbers. *)
Definition Qlt_bool (x y : Q) : bool := negb (Qle_bool y x).

(** [np.array(rows)] on a list of one-dimensional arrays: the rows must have
    one common length. *)
Definition array2 {A} (rows : list (list A)) : result (list (list A)) :=
  match rows with
  | [] => Ok []
  | r :: rs =>
      if forallb (fun r' => Nat.eqb (length r') (length r)) rs then Ok rows
      else Raise (ValueError "inhomogeneous shape")
  end.

(** [arr > thr] and [arr < thr], element by element. *)
Definition gt (arr : list (list Q)) (thr : Q) : list (list bool) :=
  map (map (fun x => Qlt_bool thr x)) arr.
Definition lt (arr : list (list Q)) (thr : Q) : list (list bool) :=
  map (map (fun x => Qlt_bool x thr)) arr.

(** [a & b] and [a | b] on boolean arrays of one shape. *)
Definition band (a b : list (list bool)) : list (list bool) :=
  zip_with (zip_with andb) a b.
Definition bor (a b : list (list bool)) : list (list bool) :=
  zip_with (zip_with orb) a b.

(** [np.sum(arr, axis=0)] on a boolean array: per column, the number of rows
    that hold [True]. Without rows there is no column. *)
Definition sum_axis0 (arr : list (list bool)) : list nat :=
  match arr with
  | [] => []
  | r :: rs => fold_left (zip_with Nat.add) (map (map Nat.b2n) rs) (map Nat.b2n r)
  end.

(** An integer array stored as an image. *)
Definition as_image (counts : list nat) : list Q :=
  map (fun c => inject_Z (Z.of_nat c)) counts.

Section Floats.
(** numpy's [add] and [true_divide] on two floats: each gives the float
    nearest to the exact result, so neither is the addition or the division
    of [Q]. *)
Context (np_add np_divide : Q -> Q -> Q).

(** [np.mean(rows, axis=0)]: the rows are added up one after the other,
    column by column, starting from the first, and every column's sum is
    divided by the number of rows. ([mean] never passes an empty list of
    rows.) *)
Definition mean_axis0 (rows : list (list Q)) : result (list Q) :=
  arr ← array2 rows;
  match arr with
  | [] => Ok []
  | r :: rs =>
      Ok (map (fun s => np_divide s (inject_Z (Z.of_nat (length arr))))
              (fold_left (zip_with np_add) rs r))
  end.

End Floats.

End Np.

(** ** [MetaAnalysisPlus]: objects, construction, [mean] and [conjunction] *)

Module MetaAnalysisPlus.

(** A reference to an object. *)
Definition loc : Type := positive.

(** A [MetaAnalysisPlus] object built from existing images: a reference to
    its [Info], the handle of the shared dataset (never inspected here) and
    the images by name. *)
Record t : Type := mk {
  info : loc;
  dataset : nat;
  images : gmap string (list Q)
}.

Inductive obj : Type :=
| OInfo (i : Info.t)
| OMeta (m : t).

Abbreviation heap := (gmap loc obj).

(** Computations over the heap that may raise; a raise keeps the heap as it
    was when the exception left. *)
Definition M (A : Type) : Type := heap -> result A * heap.

#[global] Instance M_ret : MRet M := λ A a h, (Ok a, h).
#[global] Instance M_bind : MBind M := λ A B k c h,
  match c h with
  | (Ok a, h') => k a h'
  | (Raise e, h') => (Raise e, h')
  end.

Definition raise {A} (e : exn) : M A := λ h, (Raise e, h).

Definition lift {A} (r : result A) : M A := λ h, (r, h).

(** A new object gets a reference no live object has. *)
Definition alloc (o : obj) : M loc := λ h,
  let l := fresh (dom h) in (Ok l, <[l := o]> h).

(** Reading attribute [attr] ([images], [info] or [dataset]) of a
    [MetaAnalysisPlus]; any other object has none of them. *)
Definition get_meta (attr : string) (l : loc) : M t := λ h,
  match h !! l with
  | Some (OMeta m) => (Ok m, h)
  | _ => (Raise (AttributeError attr), h)
  end.

(** [meta.images[image_name]] *)
Definition get_image (image_name : string) (l : loc) : M (list Q) :=
  m ← get_meta "images" l;
  match images m !! image_name with
  | Some img => mret img
  | None => raise (KeyError image_name)
  end.

(** [info.set_name(name)] through a reference. *)
Definition set_name (l : loc) (new_name : string) : M unit := λ h,
  match h !! l with
  | Some (OInfo i) => (Ok (), <[l := OInfo (Info.set_name new_name i)]> h)
  | _ => (Raise (AttributeError "set_name"), h)
  end.

(** [cls.Info(pairs)] *)
Definition new_info (pairs : list (string * Info.scalar)) : M loc :=
  i ← lift (Info.init pairs);
  alloc (OInfo i).

(** The [info] argument of [__init__]: an [Info] instance, or pairs from
    which one is made. *)
Inductive info_arg : Type :=
| InfoRef (l : loc)
| InfoPairs (pairs : list (string * Info.scalar)).

(** [MetaAnalysisPlus.__init__(info, dataset, images=images)] with images
    given (the branch both aggregations take). *)
Definition new (info : info_arg) (dataset : nat) (images : gmap string (list Q)) : M loc :=
  i ← match info with
      | InfoRef l => mret l
      | InfoPairs pairs => new_info pairs
      end;
  alloc (OMeta (mk i dataset images)).

Section Floats.
(** numpy's rounding addition and division, see [Np.mean_axis0]. *)
Context (np_add np_divide : Q -> Q -> Q).

(** [MetaAnalysisPlus.mean]. The images of the first element are visited in
    the order of the map's listing. *)
Definition mean (meta_list : list loc) : M loc :=
  match meta_list with
  | [] => raise (ValueError "Empty list")
  | [only] => mret only
  | first :: _ =>
      m0 ← get_meta "images" first;
      mean_imgs ← mapM (fun img =>
                     rows ← mapM (get_image img) meta_list;
                     avg ← lift (Np.mean_axis0 np_add np_divide rows);
                     mret (img, avg))
                   (map fst (map_to_list (images m0)));
      new (InfoRef (info m0)) (dataset m0) (list_to_map mean_imgs)
  end.

End Floats.

Section Builtins.
(** The builtin [str(x)] on a number. *)
Context (py_str : Q -> string).

(** [lower_thr == upper_thr] on optional numbers. *)
Definition thr_eqb (lower_thr upper_thr : option Q) : bool :=
  match lower_thr, upper_thr with
  | None, None => true
  | Some a, Some b => Qeq_bool a b
  | _, _ => false
  end.

(** Lines 212-226 of [conjunction]: the count image and the name of the
    criterion. *)
Definition count_image (src_imgs : list (list Q)) (lower_thr upper_thr : option Q)
  : result (list nat * string) :=
  match upper_thr, lower_thr with
  | None, Some lo =>
      Ok (Np.sum_axis0 (Np.gt src_imgs lo), ">" +:+ py_str lo)
  | None, None => Raise TypeError
  | Some up, None =>
      Ok (Np.sum_axis0 (Np.lt src_imgs up), "<" +:+ py_str up)
  | Some up, Some lo =>
      if Np.Qlt_bool lo up then
        Ok (Np.sum_axis0 (Np.band (Np.gt src_imgs lo) (Np.lt src_imgs up)),
            py_str lo +:+ "-" +:+ py_str up)
      else
        Ok (Np.sum_axis0 (Np.bor (Np.gt src_imgs lo) (Np.lt src_imgs up)),
            ">" +:+ py_str lo +:+ "or" +:+ "<" +:+ py_str up)
  end.

(** [if expression:] *)
Definition truthy (expression : option string) : option string :=
  match expression with
  | Some "" => None
  | e => e
  end.

(** [MetaAnalysisPlus.conjunction] *)
Definition conjunction (meta_list : list loc) (image_name : string)
    (lower_thr upper_thr : option Q) (expression : option string)
    (extra_info : list (string * Info.scalar)) : M loc :=
  if is_none lower_thr && is_none upper_thr then
    raise (ValueError "Must specify at least one threshold")
  else if thr_eqb lower_thr upper_thr then
    raise (ValueError "Lower and upper thresholds must be different")
  else
    rows ← mapM (get_image image_name) meta_list;
    src_imgs ← lift (Np.array2 rows);
    '(counts, comp_name) ← lift (count_image src_imgs lower_thr upper_thr);
    let pairs := [("based on", Info.SStr image_name); ("criterion", Info.SStr comp_name)]
                   ++ extra_info in
    info ← match truthy expression with
           | Some e =>
               i ← new_info pairs;
               short ← lift (NsInfo.shorten_expr e);
               _ ← set_name i (short +:+ "_" +:+ image_name +:+ comp_name);
               mret (InfoRef i)
           | None => mret (InfoPairs pairs)
           end;
    first ← lift (index0 meta_list);
    m0 ← get_meta "dataset" first;
    new info (dataset m0) {[ "conjunction" := Np.as_image counts ]}.
End Builtins.

End MetaAnalysisPlus.

(** ** [MetaAnalysisPlus.save_images]: file names of the written images *)

Module Output.
Import MetaAnalysisPlus.

(** [s[len(s) - 1]], when [s] is not empty. *)
Fixpoint str_last (s : string) : option ascii :=
  match s with
  | EmptyString => None
  | String c EmptyString => Some c
  | String _ s' => str_last s'
  end.

(** [if len(filename) > 0 and filename[len(filename) - 1] != '_': filename += '_'] *)
Definition add_underscore (filename : string) : string :=
  match str_last filename with
  | Some c => if Ascii.eqb c "_" then filename else filename +:+ "_"
  | None => filename
  end.

(** [if len(postfix) > 0 and postfix[0] != '_': postfix = '_' + postfix] *)
Definition lead_underscore (postfix : string) : string :=
  match postfix with
  | String c _ => if Ascii.eqb c "_" then postfix else "_" +:+ postfix
  | EmptyString => postfix
  end.

(** The images to write: all of them, or those of [image_names] that exist
    ([list(set(image_names) & images)]). *)
Definition selected_images (image_names : option (list string))
    (images : gmap string (list Q)) : list string :=
  match image_names with
  | None => (map_to_list images).*1
  | Some names => elements ((list_to_set names : gset string) ∩ dom images)
  end.

(** Reading an [Info] through its reference. *)
Definition get_info (l : loc) : M Info.t := λ h,
  match h !! l with
  | Some (OInfo i) => (Ok i, h)
  | _ => (Raise (AttributeError "name"), h)
  end.

Section Builtins.
(** The builtin [os.path.join] on two components. *)
Context (path_join : string → string → string).

(** The loop of [save_images] over the selected names; [postfix] is
    reassigned in the loop and carried to the next round. The result lists the
    calls of [save_img]: the path and the image written. *)
Fixpoint save_loop (m : t) (prefix : option string) (outpath : string)
    (names : list string) (postfix : string) : M (list (string * list Q)) :=
  match names with
  | [] => mret []
  | img_name :: rest =>
      filename ← match prefix with
                 | Some p => mret p
                 | None => i ← get_info (info m); mret (Info.name i)
                 end;
      let filename := add_underscore filename in
      let postfix := lead_underscore postfix in
      let filename := filename +:+ img_name +:+ postfix +:+ ".nii.gz" in
      img ← match images m !! img_name with
            | Some img => mret img
            | None => raise (KeyError img_name)
            end;
      written ← save_loop m prefix outpath rest postfix;
      mret ((path_join outpath filename, img) :: written)
  end.

(** [MetaAnalysisPlus.save_images] *)
Definition save_images (self : loc) (prefix : option string) (postfix : string)
    (image_names : option (list string)) (outpath : string)
  : M (list (string * list Q)) :=
  m ← get_meta "images" self;
  save_loop m prefix outpath (selected_images image_names (images m)) postfix.
End Builtins.

End Output.

(** ** [Global]: the status gate of the GUI *)

Module Global.

(** A callback handed to [statusbar.after]: the delay in milliseconds and
    the arguments [back_to_prev] will get. *)
Record timer : Type := mk_timer {
  delay_ms : nat;
  prev_status : string;
  prev_has_error : bool
}.

(** The fields of [Global] the status code reads or writes, the label of the
    status bar, and the callbacks waiting in the event loop. *)
Record t : Type := mk {
  status : string;
  is_ready : bool;
  has_error : bool;
  history : list string;
  text_width : nat;
  label_text : string;
  label_fg : string;
  timers : list timer
}.

(** The fields [__init__] sets. *)
Definition init : t :=
  {| status := "Ready"; is_ready := false; has_error := false; history := [];
     text_width := 80; label_text := ljust 80 "Ready"; label_fg := "#d6d6d6";
     timers := [] |}.

(** [_update_status] *)
Definition _update_status (new_status : string) (ready error : bool) (self : t) : t :=
  let statusbar_text :=
    if Nat.ltb (text_width self) (String.length new_status)
    then slice_to (text_width self - 3) new_status +:+ "..."
    else ljust (text_width self) new_status in
  let text_color :=
    if error then "#ff0000" else if ready then "#90ee90" else "#e3e3e3" in
  {| status := new_status;
     is_ready := is_ready self;
     has_error := error;
     history := history self ++ [new_status];
     text_width := text_width self;
     label_text := statusbar_text;
     label_fg := text_color;
     timers := timers self |}.

Definition set_is_ready (ready : bool) (self : t) : t :=
  {| status := status self; is_ready := ready; has_error := has_error self;
     history := history self; text_width := text_width self;
     label_text := label_text self; label_fg := label_fg self;
     timers := timers self |}.

(** [statusbar.after(ms, back_to_prev, *prev)] *)
Definition after (ms : nat) (prev : string * bool) (self : t) : t :=
  {| status := status self; is_ready := is_ready self; has_error := has_error self;
     history := history self; text_width := text_width self;
     label_text := label_text self; label_fg := label_fg self;
     timers := timers self ++ [mk_timer ms prev.1 prev.2] |}.

Definition busy_warning : string :=
  "Another task is running... Please try again later".

(** [update_status]. The block under [status_mutex] runs as one step; [prev]
    is [None] for the initial [False] and a pair otherwise (a pair is always
    true as a condition). *)
Definition update_status (new_status : string) (ready error user_op : bool) (self : t)
  : bool * t :=
  let '(prev, self1) :=
    if negb user_op || is_ready self then
      (None, set_is_ready ready (_update_status new_status ready error self))
    else
      (Some (status self, has_error self),
       _update_status busy_warning false true self) in
  match prev with
  | Some p => (false, after 2000 p self1)
  | None => (true, self1)
  end.

(** The nested [back_to_prev], run by the event loop when a timer is due. *)
Definition back_to_prev (prev_status : string) (prev_has_error : bool) (self : t) : t :=
  if negb (is_ready self) then _update_status prev_status false prev_has_error self
  else self.

(** The event loop runs a due timer. *)
Definition fire (tm : timer) (self : t) : t :=
  back_to_prev (prev_status tm) (prev_has_error tm) self.

End Global.

(** ** [Global.show_error], [Global.load_pkl_database] and the singleton *)

Module App.
Import Global.

(** [Global] with the dataset handle, and what the code sends to the GUI
    toolkit: the events generated and the error dialogs shown (title, text). *)
Record t : Type := mk {
  glob : Global.t;
  dataset : option nat;
  events : list string;
  dialogs : list (string * string)
}.

Definition with_glob (g : Global.t) (self : t) : t :=
  mk g (dataset self) (events self) (dialogs self).

Section Builtins.
(** The builtin [str(e)] on an exception. *)
Context (str_exn : exn → string).

(** [show_error]: the status turns to the error, the app is ready again,
    and the exception goes on to the caller. *)
Definition show_error (exception : exn) (self : t) : result unit * t :=
  let g := (update_status ("Error: " +:+ str_exn exception) true true false (glob self)).2 in
  (Raise exception, with_glob (set_is_ready true g) self).

(** The [except] clause of [load_pkl_database]: the dialog, then the
    status. *)
Definition load_pkl_database_except (e : exn) (self : t) : t :=
  let shown := mk (glob self) (dataset self) (events self)
                 (dialogs self ++ [("Error: failed to load database", str_exn e)]) in
  with_glob (update_status ("Error: failed to load database. " +:+ str_exn e)
               true true false (glob shown)).2 shown.

(** [load_pkl_database]; [load] is the outcome of
    [DatasetPlus.load_default_database()], a handle or an exception, and
    [generate] the outcome of [self.root.event_generate(...)], which raises
    when there is no root window ([root] is [None] unless one is given to
    [__init__]). Both calls are in the [try] block: an exception of the second
    is handled like one of the first, with the dataset already stored and the
    status already set to 'Ready'. *)
Definition load_pkl_database (load : result nat) (generate : result unit) (self : t) : t :=
  let s1 := with_glob (update_status "Loading database..." false false false (glob self)).2
              self in
  match load with
  | Ok d =>
      let s2 := mk (glob s1) (Some d) (events s1) (dialogs s1) in
      let s3 := with_glob (update_status "Ready" true false false (glob s2)).2 s2 in
      match generate with
      | Ok _ => mk (glob s3) (dataset s3) (events s3 ++ ["<<Database_loaded>>"]) (dialogs s3)
      | Raise e => load_pkl_database_except e s3
      end
  | Raise e => load_pkl_database_except e s1
  end.
End Builtins.

End App.

Module Singleton.

Section Call.
(** Classes (the keys of [_instances]), instances, constructor arguments and
    whatever else a constructor changes. *)
Context {Cls : Type} `{Countable Cls} {Inst Args World : Type}.
(** The call of the parent metaclass: the ordinary construction. *)
Context (construct : Cls → Args → World → result Inst * World).

(** [_Singleton.__call__] on the registry [_instances]. *)
Definition call (cls : Cls) (args : Args) (instances : gmap Cls Inst) (w : World)
  : result Inst * gmap Cls Inst * World :=
  match instances !! cls with
  | Some inst => (Ok inst, instances, w)
  | None =>
      match construct cls args w with
      | (Ok inst, w') => (Ok inst, <[cls := inst]> instances, w')
      | (Raise e, w') => (Raise e, instances, w')
      end
  end.
End Call.

End Singleton.

(** * Properties *)

(** ** The specification's reading of the short name *)

Module Spec.

(** White space as [str.split()] understands it on ASCII text. *)
Definition is_whitespace (c : ascii) : bool :=
  let n := nat_of_ascii c in
  (Nat.leb 9 n && Nat.leb n 13) || (Nat.leb 28 n && Nat.leb n 32).

Fixpoint skip_whitespace (s : string) : string :=
  match s with
  | EmptyString => EmptyString
  | String c s' => if is_whitespace c then skip_whitespace s' else s
  end.

Fixpoint until_whitespace (s : string) : string :=
  match s with
  | EmptyString => EmptyString
  | String c s' => if is_whitespace c then EmptyString else String c (until_whitespace s')
  end.

(** The first whitespace-delimited token of a text. *)
Definition first_token (s : string) : string :=
  until_whitespace (skip_whitespace s).

(** "its first whitespace-delimited token with punctuation stripped" *)
Definition short_name (expr : string) : string :=
  strip punctuation (first_token expr).

End Spec.

(** ** Strings *)

Module PyFacts.

(** Every character of [s] is one of [chars]. *)
Fixpoint all_in (chars s : string) : bool :=
  match s with
  | EmptyString => true
  | String c s' => char_in c chars && all_in chars s'
  end.

Definition first_char (s : string) : option ascii :=
  match s with
  | EmptyString => None
  | String c _ => Some c
  end.

Fixpoint last_char (s : string) : option ascii :=
  match s with
  | EmptyString => None
  | String c EmptyString => Some c
  | String _ s' => last_char s'
  end.

(** [s] neither starts nor ends with one of [chars]. *)
Definition clean_ends (chars s : string) : Prop :=
  (∀ c, first_char s = Some c → char_in c chars = false) ∧
  (∀ c, last_char s = Some c → char_in c chars = false).

(** The two equations of [+:+], for rewriting. *)
Lemma append_nil_l (s : string) : "" +:+ s = s.
Proof. reflexivity. Qed.

Lemma append_cons (c : ascii) (s t : string) : String c s +:+ t = String c (s +:+ t).
Proof. reflexivity. Qed.

Create Rewrite HintDb pystr.
#[export] Hint Rewrite append_nil_l append_cons : pystr.

Ltac str_simpl := simpl; autorewrite with pystr; simpl.

Lemma partition_char_Some sep s before after :
  partition_char sep s = Some (before, after) →
  s = before +:+ String sep after ∧ char_in sep before = false.
Proof.
  revert before. induction s as [|c s IH]; intros before; simpl; [done |].
  destruct (Ascii.eqb c sep) eqn:Hc.
  - intros [= <- <-]. apply Ascii.eqb_eq in Hc as ->. done.
  - destruct (partition_char sep s) as [[b a]|] eqn:Hp; [| done].
    intros [= <- <-]. destruct (IH b eq_refl) as [-> Hb]. str_simpl.
    rewrite Ascii.eqb_sym, Hc. done.
Qed.

Lemma partition_char_None sep s :
  partition_char sep s = None → char_in sep s = false.
Proof.
  induction s as [|c s IH]; simpl; [done |].
  destruct (Ascii.eqb c sep) eqn:Hc; [done |].
  destruct (partition_char sep s) as [[b a]|]; [done |].
  intros _. rewrite Ascii.eqb_sym, Hc. auto.
Qed.

Lemma lstrip_spec chars s :
  ∃ pre, s = pre +:+ lstrip chars s ∧ all_in chars pre = true ∧
    ∀ c, first_char (lstrip chars s) = Some c → char_in c chars = false.
Proof.
  induction s as [|c s (pre & Hs & Hpre & Hfirst)]; simpl.
  - exists "". done.
  - destruct (char_in c chars) eqn:Hc.
    + exists (String c pre). str_simpl. rewrite Hc, Hpre, <- Hs. done.
    + exists "". str_simpl. split_and!; [done..|]. by intros ? [= <-].
Qed.

Lemma rstrip_spec chars s :
  ∃ post, s = rstrip chars s +:+ post ∧ all_in chars post = true ∧
    ∀ c, last_char (rstrip chars s) = Some c → char_in c chars = false.
Proof.
  induction s as [|c s (post & Hs & Hpost & Hlast)]; simpl.
  - exists "". done.
  - destruct (rstrip chars s) as [|d r] eqn:Hr.
    + rewrite append_nil_l in Hs. subst post. destruct (char_in c chars) eqn:Hc.
      * exists (String c s). rewrite append_nil_l. simpl.
        rewrite Hc, Hpost. done.
      * exists s. rewrite append_cons, append_nil_l.
        split_and!; [done..|]. by intros ? [= <-].
    + exists post. rewrite append_cons, <- Hs. done.
Qed.

(** Stripping on the right keeps the first character of what is left. *)
Lemma rstrip_first_char chars s c :
  first_char (rstrip chars s) = Some c → first_char s = Some c.
Proof.
  destruct s as [|d s]; simpl; [done |].
  destruct (rstrip chars s); [destruct (char_in d chars) |]; simpl; done.
Qed.

Lemma strip_spec chars s :
  ∃ pre post, s = pre +:+ strip chars s +:+ post ∧
    all_in chars pre = true ∧ all_in chars post = true ∧
    clean_ends chars (strip chars s).
Proof.
  unfold strip.
  destruct (lstrip_spec chars s) as (pre & Hs & Hpre & Hfirst).
  destruct (rstrip_spec chars (lstrip chars s)) as (post & Hl & Hpost & Hlast).
  exists pre, post. split_and!; [| done | done |].
  - by rewrite <- Hl.
  - split; [| done]. intros c Hc. by apply Hfirst, (rstrip_first_char chars).
Qed.

End PyFacts.

(** ** [NsInfo] and [Info]: naming *)

Module NsInfoFacts.
Import PyFacts.

(** The text before the first occurrence of [sep], all of it without one. *)
Definition first_field (sep : ascii) (s : string) : string :=
  match partition_char sep s with
  | Some (before, _) => before
  | None => s
  end.

(** [shorten_expr] never raises: [split] always has a first field. *)
Lemma shorten_expr_Ok (expr : string) :
  NsInfo.shorten_expr expr = Ok (strip punctuation (first_field " " expr)).
Proof.
  unfold NsInfo.shorten_expr, first_field. simpl.
  by destruct (partition_char " " expr) as [[b a]|].
Qed.

Lemma first_field_spec sep s :
  char_in sep (first_field sep s) = false ∧
  (s = first_field sep s ∨ ∃ rest, s = first_field sep s +:+ String sep rest).
Proof.
  unfold first_field. destruct (partition_char sep s) as [[b a]|] eqn:Hp.
  - apply partition_char_Some in Hp as [-> Hb]. eauto.
  - apply partition_char_None in Hp. eauto.
Qed.

Example shorten_expr_plain : NsInfo.shorten_expr "pain" = Ok "pain".
Proof. reflexivity. Qed.

Example shorten_expr_two_words :
  NsInfo.shorten_expr "(social) cognition & emotion" = Ok "social".
Proof. reflexivity. Qed.

Example shorten_expr_leading_space : NsInfo.shorten_expr " pain" = Ok "".
Proof. reflexivity. Qed.

Example shorten_expr_tab :
  NsInfo.shorten_expr ("pain" +:+ String "009" "empathy")
  = Ok ("pain" +:+ String "009" "empathy").
Proof. reflexivity. Qed.

(** C2, as stated, fails: [shorten_expr] cuts at the first space character
    only. In "pain<TAB>empathy" the tab does not end the first token, so the
    whole text comes back, whereas its first whitespace-delimited token is
    "pain". *)
Lemma shorten_expr_not_first_whitespace_token :
  let expr := "pain" +:+ String "009" "empathy" in
  NsInfo.shorten_expr expr = Ok expr ∧
  Spec.short_name expr = "pain" ∧
  NsInfo.shorten_expr expr ≠ Ok (Spec.short_name expr).
Proof. split_and!; [reflexivity | reflexivity | discriminate]. Qed.

(** C2, amended: for every expression string, [shorten_expr] returns the
    text that stands before the first space character (the whole string when
    it has no space) with its leading and trailing punctuation removed: that
    text [tok] contains no space, [expr] is [tok] or [tok], a space and a rest,
    and [tok] is the result between two runs of punctuation, the result itself
    neither starting nor ending with punctuation. *)
Theorem shorten_expr_first_space_field (expr : string) :
  ∃ tok pre short post,
    NsInfo.shorten_expr expr = Ok short ∧
    (expr = tok ∨ ∃ rest, expr = tok +:+ " " +:+ rest) ∧
    char_in " " tok = false ∧
    tok = pre +:+ short +:+ post ∧
    all_in punctuation pre = true ∧
    all_in punctuation post = true ∧
    clean_ends punctuation short.
Proof.
  destruct (first_field_spec " " expr) as [Hsp Hexpr].
  destruct (strip_spec punctuation (first_field " " expr))
    as (pre & post & Htok & Hpre & Hpost & Hends).
  exists (first_field " " expr), pre, (strip punctuation (first_field " " expr)), post.
  split_and!; auto using shorten_expr_Ok.
Qed.

(** Where the two readings agree: a text whose only white space is the space
    character and which does not start with one. *)
Lemma until_whitespace_first_field (s : string) :
  (∀ c, char_in c s = true → Spec.is_whitespace c = true → c = " "%char) →
  Spec.until_whitespace s = first_field " " s.
Proof.
  unfold first_field. induction s as [|c s IH]; intros Hws; simpl; [done |].
  destruct (Ascii.eqb c " ") eqn:Hc.
  - apply Ascii.eqb_eq in Hc as ->. done.
  - assert (Spec.is_whitespace c = false) as ->.
    { destruct (Spec.is_whitespace c) eqn:Hw; [| done].
      rewrite (Hws c) in Hc; [done | | done]. simpl. by rewrite Ascii.eqb_refl. }
    rewrite IH.
    + by destruct (partition_char " " s) as [[b a]|].
    + intros d Hd. apply Hws. simpl. rewrite Hd. by destruct (Ascii.eqb d c).
Qed.

Lemma shorten_expr_agrees_with_spec (expr : string) :
  (∀ c, char_in c expr = true → Spec.is_whitespace c = true → c = " "%char) →
  first_char expr ≠ Some " "%char →
  NsInfo.shorten_expr expr = Ok (Spec.short_name expr).
Proof.
  intros Hws Hfirst. rewrite shorten_expr_Ok. unfold Spec.short_name, Spec.first_token.
  assert (Spec.skip_whitespace expr = expr) as ->.
  { destruct expr as [|c s]; simpl; [done |].
    destruct (Spec.is_whitespace c) eqn:Hw; [| done].
    exfalso. apply Hfirst. simpl. f_equal. apply Hws; [| done].
    simpl. by rewrite Ascii.eqb_refl. }
  by rewrite until_whitespace_first_field.
Qed.

(** *** [get_shorthand] *)

Example get_shorthand_single :
  Info.get_shorthand [("expression", Info.SStr "pain*"); ("num_studies", Info.SNum 1000)]
  = Ok "pain".
Proof. reflexivity. Qed.

Example get_shorthand_versus :
  Info.get_shorthand
    [("expression", Info.SStr "social cognition");
     ("contrary expression", Info.SStr "(emotion)")]
  = Ok "social_vs_emotion".
Proof. reflexivity. Qed.

Example get_shorthand_contrary_only :
  Info.get_shorthand [("contrary expression", Info.SStr "emotion")] = Ok "".
Proof. reflexivity. Qed.

(** C7, as stated, fails: with a 'contrary expression' entry but no
    'expression' entry the name is empty, not of the form [A_vs_B]. *)
Lemma get_shorthand_contrary_without_expression :
  let info := [("contrary expression", Info.SStr "emotion")] in
  Info.od_get "contrary expression" info = Some (Info.SStr "emotion") ∧
  Info.get_shorthand info = Ok "" ∧
  ¬ ∃ a b, Info.get_shorthand info = Ok (a +:+ "_vs_" +:+ b).
Proof.
  split_and!; [reflexivity | reflexivity |].
  intros (a & b & Hname). destruct a; discriminate Hname.
Qed.

(** C7, amended: if the info mapping has text under 'expression' and text
    under 'contrary expression', the derived name is the shortened expression,
    [_vs_], and the shortened contrary expression. *)
Theorem get_shorthand_vs (info : Info.odict) (e c : string) :
  Info.od_get "expression" info = Some (Info.SStr e) →
  Info.od_get "contrary expression" info = Some (Info.SStr c) →
  ∃ a b, NsInfo.shorten_expr e = Ok a ∧ NsInfo.shorten_expr c = Ok b ∧
         Info.get_shorthand info = Ok (a +:+ "_vs_" +:+ b).
Proof.
  intros He Hc. unfold Info.get_shorthand. rewrite He, Hc. simpl.
  rewrite !shorten_expr_Ok. simpl. eauto.
Qed.

Lemma get_shorthand_vs_witness :
  ∃ a b, NsInfo.shorten_expr "social cognition" = Ok a ∧
         NsInfo.shorten_expr "(emotion)" = Ok b ∧
         Info.get_shorthand
           [("expression", Info.SStr "social cognition");
            ("num_studies", Info.SNum 1000);
            ("contrary expression", Info.SStr "(emotion)")]
         = Ok (a +:+ "_vs_" +:+ b).
Proof.
  apply (get_shorthand_vs
           [("expression", Info.SStr "social cognition");
            ("num_studies", Info.SNum 1000);
            ("contrary expression", Info.SStr "(emotion)")]
           "social cognition" "(emotion)"); reflexivity.
Defined.

End NsInfoFacts.

(** ** Image names and their numeric suffix *)

Module ImgNameFacts.
Import PyFacts.

(** The characters of [str(x)] for a number [x]: digits, sign, point, the
    exponent mark, and the letters of [inf] and [nan]. *)
Definition float_chars : string := "0123456789+-.einfa".

Lemma char_in_all_in c chars s :
  all_in chars s = true → char_in c chars = false → char_in c s = false.
Proof.
  induction s as [|d s IH]; simpl; [done |].
  intros [Hd Hs]%andb_true_iff Hc. destruct (Ascii.eqb c d) eqn:Hcd; [| auto].
  apply Ascii.eqb_eq in Hcd as ->. congruence.
Qed.

(** A pattern whose first character is missing from a text does not occur
    in it. *)
Lemma str_contains_absent c pat s :
  char_in c s = false → str_contains (String c pat) s = false.
Proof.
  induction s as [|d s IH]; simpl; [done |].
  destruct (Ascii.eqb c d) eqn:Hcd; [done |]. intros Hs.
  destruct (ascii_dec c d) as [->|_]; [by rewrite Ascii.eqb_refl in Hcd | auto].
Qed.

Lemma str_contains_prefix pat s : str_contains pat (pat +:+ s) = true.
Proof.
  assert (String.prefix pat (pat +:+ s) = true) as Hp.
  { induction pat as [|c pat IH]; [by destruct s |].
    rewrite append_cons. simpl. by destruct (ascii_dec c c). }
  destruct pat; [by destruct s |]. rewrite append_cons in *. simpl in *. by rewrite Hp.
Qed.

Lemma slice_from_append pat s : slice_from (String.length pat) (pat +:+ s) = s.
Proof. induction pat as [|c pat IH]; [by destruct s | done]. Qed.

Section Builtins.
Context (py_float : string → option Q) (py_str : Q → string).

Local Ltac not_in_suffix Hchars :=
  apply str_contains_absent, (char_in_all_in _ float_chars); [exact Hchars | reflexivity].

(** C8: [get_num_from_img_name] gives the empty dictionary on the base
    names, and reads the parameter back from a parametrized name: where
    [str(x)] is a decimal text that [float] reads back as [x], a prior-family
    prefix followed by [str(x)] gives [{'prior': x}] and an FDR-family prefix
    followed by [str(x)] gives [{'fdr': x}]. *)
Theorem get_num_from_img_name_round_trip :
  (∀ name, name ∈ NsInfo.img_names →
     NsInfo.get_num_from_img_name py_float name = Ok ∅) ∧
  (∀ x prefix,
     all_in float_chars (py_str x) = true → py_float (py_str x) = Some x →
     (prefix ∈ NsInfo.prior_img_names →
        NsInfo.get_num_from_img_name py_float (prefix +:+ py_str x)
        = Ok {[ "prior" := x ]}) ∧
     (prefix ∈ NsInfo.fdr_img_names →
        NsInfo.get_num_from_img_name py_float (prefix +:+ py_str x)
        = Ok {[ "fdr" := x ]})).
Proof.
  split.
  - intros name Hname. unfold NsInfo.get_num_from_img_name.
    by rewrite bool_decide_eq_true_2.
  - intros x prefix Hchars Hfloat.
    assert (∀ p, NsInfo.float py_float (slice_from (String.length p) (p +:+ py_str x)) = Ok x)
      as Hnum.
    { intros p. rewrite slice_from_append. unfold NsInfo.float. by rewrite Hfloat. }
    split; intros Hp; unfold NsInfo.get_num_from_img_name;
      repeat (apply elem_of_cons in Hp as [->|Hp]); try by apply elem_of_nil in Hp.
    all: rewrite bool_decide_eq_false_2;
      [| intros Hin; repeat (apply elem_of_cons in Hin as [Hin|Hin]);
         [cbv [String.append] in Hin; discriminate Hin .. | by apply elem_of_nil in Hin]].
    + unfold NsInfo.prior_img_names, List.find. rewrite str_contains_prefix, Hnum. done.
    + unfold NsInfo.prior_img_names, List.find.
      replace (str_contains "pAgF_given_pF=" ("pFgA_given_pF=" +:+ py_str x)) with false.
      * rewrite str_contains_prefix, Hnum. done.
      * cbv [String.append]. simpl. symmetry. not_in_suffix Hchars.
    + unfold NsInfo.prior_img_names, NsInfo.fdr_img_names, List.find.
      replace (str_contains "pAgF_given_pF=" ("uniformity-test_z_FDR_" +:+ py_str x)) with false
        by (cbv [String.append]; simpl; symmetry; not_in_suffix Hchars).
      replace (str_contains "pFgA_given_pF=" ("uniformity-test_z_FDR_" +:+ py_str x)) with false
        by (cbv [String.append]; simpl; symmetry; not_in_suffix Hchars).
      rewrite str_contains_prefix, Hnum. done.
    + unfold NsInfo.prior_img_names, NsInfo.fdr_img_names, List.find.
      replace (str_contains "pAgF_given_pF=" ("association-test_z_FDR_" +:+ py_str x)) with false
        by (cbv [String.append]; simpl; symmetry; not_in_suffix Hchars).
      replace (str_contains "pFgA_given_pF=" ("association-test_z_FDR_" +:+ py_str x)) with false
        by (cbv [String.append]; simpl; symmetry; not_in_suffix Hchars).
      replace (str_contains "uniformity-test_z_FDR_" ("association-test_z_FDR_" +:+ py_str x))
        with false
        by (cbv [String.append]; simpl; symmetry; not_in_suffix Hchars).
      rewrite str_contains_prefix, Hnum. done.
Qed.
End Builtins.

(** A fragment of [float] and [str] on two literals, to run the round trip. *)
Definition sample_float (s : string) : option Q :=
  if String.eqb s "0.5" then Some (1 # 2)
  else if String.eqb s "0.01" then Some (1 # 100)
  else None.

Definition sample_str (x : Q) : string :=
  if Qeq_bool x (1 # 2) then "0.5" else "0.01".

Lemma get_num_from_img_name_round_trip_witness :
  NsInfo.get_num_from_img_name sample_float "association-test_z" = Ok ∅ ∧
  NsInfo.get_num_from_img_name sample_float "pFgA_given_pF=0.5" = Ok {[ "prior" := 1 # 2 ]} ∧
  NsInfo.get_num_from_img_name sample_float "association-test_z_FDR_0.01"
  = Ok {[ "fdr" := 1 # 100 ]}.
Proof.
  destruct (get_num_from_img_name_round_trip sample_float sample_str) as [Hbase Hnum].
  split_and!.
  - apply Hbase. unfold NsInfo.img_names. repeat constructor.
  - apply (Hnum (1 # 2) "pFgA_given_pF=" eq_refl eq_refl).
    unfold NsInfo.prior_img_names. repeat constructor.
  - apply (Hnum (1 # 100) "association-test_z_FDR_" eq_refl eq_refl).
    unfold NsInfo.fdr_img_names. repeat constructor.
Defined.

End ImgNameFacts.

(** ** The status gate *)

Module GlobalFacts.
Import Global.

Lemma update_status_user_busy new_status ready error self :
  is_ready self = false →
  update_status new_status ready error true self
  = (false, after 2000 (status self, has_error self)
              (_update_status busy_warning false true self)).
Proof. intros Hbusy. unfold update_status. by rewrite Hbusy. Qed.

Lemma update_status_applied new_status ready error user_op self :
  user_op = false ∨ is_ready self = true →
  update_status new_status ready error user_op self
  = (true, set_is_ready ready (_update_status new_status ready error self)).
Proof.
  intros Hgo. unfold update_status.
  assert (negb user_op || is_ready self = true) as ->; [| done].
  destruct Hgo as [-> | ->]; [done | by destruct user_op].
Qed.

Example update_status_after_init :
  update_status "Loading database..." false false false init
  = (true, {| status := "Loading database..."; is_ready := false; has_error := false;
              history := ["Loading database..."]; text_width := 80;
              label_text := ljust 80 "Loading database..."; label_fg := "#e3e3e3";
              timers := [] |}).
Proof. reflexivity. Qed.

(** What the label of a status bar [width] characters wide shows for a
    status: the text padded with spaces to the width, or, when it is longer
    than the width, its first [width - 3] characters and an ellipsis. *)
Definition statusbar_text (width : nat) (s : string) : string :=
  if Nat.ltb width (String.length s) then slice_to (width - 3) s +:+ "..."
  else ljust width s.

Example statusbar_text_warning :
  statusbar_text 80 busy_warning
  = "Another task is running... Please try again later                               ".
Proof. reflexivity. Qed.

Example statusbar_text_cut :
  statusbar_text 10 busy_warning = "Another...".
Proof. reflexivity. Qed.

(** C9: the busy/ready gate. A user request while busy returns [False] and
    leaves a state that does not depend on what was requested: the status is
    the warning, flagged as an error, the app stays busy, the status bar shows
    the warning in red (and the warning is the new last entry of the history),
    and one callback is queued with a delay of 2000 ms which, run on any later
    state that is still busy, puts back the status and error flag from before
    the request, on the status bar as well (and does nothing once the app is
    ready). A request that is not a user's, or any request while ready, returns
    [True] with the requested status, readiness and error flag in place, the
    requested status on the status bar in the colour of the flags, and nothing
    queued. *)
Theorem update_status_gate (self : t) (new_status : string) (ready error user_op : bool) :
  let r := update_status new_status ready error user_op self in
  (user_op = true → is_ready self = false →
     r.1 = false ∧
     r.2 = (update_status "Ready" false false true self).2 ∧
     status r.2 = busy_warning ∧ has_error r.2 = true ∧ is_ready r.2 = false ∧
     label_fg r.2 = "#ff0000" ∧
     label_text r.2 = statusbar_text (text_width self) busy_warning ∧
     history r.2 = history self ++ [busy_warning] ∧
     text_width r.2 = text_width self ∧
     ∃ tm, timers r.2 = timers self ++ [tm] ∧ delay_ms tm = 2000 ∧
       ∀ later,
         (is_ready later = false →
            status (fire tm later) = status self ∧
            has_error (fire tm later) = has_error self ∧
            is_ready (fire tm later) = false ∧
            label_text (fire tm later) = statusbar_text (text_width later) (status self) ∧
            label_fg (fire tm later) = (if has_error self then "#ff0000" else "#e3e3e3") ∧
            history (fire tm later) = history later ++ [status self]) ∧
         (is_ready later = true → fire tm later = later)) ∧
  (user_op = false ∨ is_ready self = true →
     r.1 = true ∧ status r.2 = new_status ∧ is_ready r.2 = ready ∧
     has_error r.2 = error ∧ timers r.2 = timers self ∧
     label_text r.2 = statusbar_text (text_width self) new_status ∧
     label_fg r.2 = (if error then "#ff0000" else if ready then "#90ee90" else "#e3e3e3") ∧
     history r.2 = history self ++ [new_status]).
Proof.
  intros r. subst r. split.
  - intros -> Hbusy. rewrite !update_status_user_busy by done. simpl.
    split_and!; try done.
    eexists. split_and!; [done..|].
    intros later. unfold fire, back_to_prev. simpl.
    split; intros Hr; rewrite Hr; simpl; rewrite ?Hr; done.
  - intros Hgo. by rewrite update_status_applied.
Qed.

Lemma update_status_gate_witness :
  let r := update_status "Analyze" false false true init in
  r.1 = false ∧ status r.2 = busy_warning ∧
  label_text r.2 = ljust 80 busy_warning ∧ label_fg r.2 = "#ff0000" ∧
  history r.2 = [busy_warning] ∧
  (∃ tm, timers r.2 = [tm] ∧ delay_ms tm = 2000 ∧
     status (fire tm r.2) = "Ready" ∧ has_error (fire tm r.2) = false ∧
     label_text (fire tm r.2) = ljust 80 "Ready" ∧ label_fg (fire tm r.2) = "#e3e3e3") ∧
  let r' := update_status "Analyze" false false true (set_is_ready true init) in
  r'.1 = true ∧ status r'.2 = "Analyze" ∧ is_ready r'.2 = false ∧
  label_text r'.2 = ljust 80 "Analyze" ∧ label_fg r'.2 = "#e3e3e3".
Proof.
  pose proof (update_status_gate init "Analyze" false false true) as [Hbusy _].
  pose proof (update_status_gate (set_is_ready true init) "Analyze" false false true)
    as [_ Hgo].
  destruct (Hbusy eq_refl eq_refl)
    as (H1 & _ & H2 & _ & Hr & Hfg & Htext & Hhist & Hw & tm & Htm & Hdelay & Hlater).
  destruct (Hgo (or_intror eq_refl)) as (H3 & H4 & H5 & _ & _ & H6 & H7 & _).
  destruct (Hlater (update_status "Analyze" false false true init).2)
    as [(L1 & L2 & _ & L3 & L4 & _) _]; [exact Hr |].
  cbv zeta. split_and!; [exact H1 | exact H2 | exact Htext | exact Hfg | exact Hhist | |
               exact H3 | exact H4 | exact H5 | exact H6 | exact H7].
  exists tm. split_and!; [exact Htm | exact Hdelay | exact L1 | exact L2 | exact L3 | exact L4].
Defined.

End GlobalFacts.

(** ** Arrays *)

Module NpFacts.

Lemma Qlt_bool_iff (x y : Q) : Np.Qlt_bool x y = true ↔ (x < y)%Q.
Proof.
  unfold Np.Qlt_bool. rewrite negb_true_iff, <- not_true_iff_false, Qle_bool_iff.
  split; [apply Qnot_le_lt | apply Qlt_not_le].
Qed.

Lemma array2_uniform {A} (rows : list (list A)) (n : nat) :
  Forall (λ r, length r = n) rows → Np.array2 rows = Ok rows.
Proof.
  destruct rows as [|r rs]; [done |]. intros [Hr Hrs]%Forall_cons. simpl.
  assert (forallb (λ r', Nat.eqb (length r') (length r)) rs = true) as ->; [| done].
  apply forallb_forall. intros r' Hr'%list_elem_of_In.
  rewrite Forall_forall in Hrs. rewrite Hr, (Hrs r' Hr'). apply Nat.eqb_refl.
Qed.

Lemma array2_inv {A} (rows : list (list A)) :
  (∃ e, Np.array2 rows = Raise e) ∨
  (Np.array2 rows = Ok rows ∧ ∃ n, Forall (λ r, length r = n) rows).
Proof.
  destruct rows as [|r rs]; simpl.
  - right. split; [done |]. by exists 0.
  - destruct (forallb _ rs) eqn:Hall; [right | left; eauto].
    split; [done |]. exists (length r). constructor; [done |].
    apply Forall_forall. intros r' Hr'%list_elem_of_In.
    rewrite forallb_forall in Hall. by apply Nat.eqb_eq, Hall.
Qed.

Lemma zip_with_map_same {A B C D} (f : B → C → D) (g : A → B) (k : A → C) (l : list A) :
  zip_with f (map g l) (map k l) = map (λ x, f (g x) (k x)) l.
Proof. induction l as [|x l IH]; simpl; [done | by rewrite IH]. Qed.

Lemma band_gt_lt arr lo up :
  Np.band (Np.gt arr lo) (Np.lt arr up)
  = map (map (λ x, Np.Qlt_bool lo x && Np.Qlt_bool x up)) arr.
Proof.
  unfold Np.band, Np.gt, Np.lt. rewrite zip_with_map_same.
  apply map_ext. intros row. apply zip_with_map_same.
Qed.

Lemma bor_gt_lt arr lo up :
  Np.bor (Np.gt arr lo) (Np.lt arr up)
  = map (map (λ x, Np.Qlt_bool lo x || Np.Qlt_bool x up)) arr.
Proof.
  unfold Np.bor, Np.gt, Np.lt. rewrite zip_with_map_same.
  apply map_ext. intros row. apply zip_with_map_same.
Qed.

(** Whether voxel [v] of an image passes the test [P]. *)
Definition voxel_passes (P : Q → bool) (v : nat) (img : list Q) : bool :=
  match img !! v with
  | Some x => P x
  | None => false
  end.

(** The number of images whose voxel [v] passes [P]. *)
Definition count_at (P : Q → bool) (v : nat) (imgs : list (list Q)) : nat :=
  length (List.filter (voxel_passes P v) imgs).

Section Columns.
Context (P : Q → bool) (n v : nat) (Hv : v < n).

Lemma fold_column_counts (rs : list (list Q)) :
  Forall (λ r, length r = n) rs →
  ∀ (acc : list nat) (a : nat),
    length acc = n → acc !! v = Some a →
    let total := fold_left (zip_with Nat.add) (map (map Nat.b2n) (map (map P) rs)) acc in
    length total = n ∧ total !! v = Some (a + count_at P v rs).
Proof.
  induction 1 as [|r rs Hr Hrs IH]; intros acc a Hlen Hacc; simpl.
  - split; [done |]. by rewrite Nat.add_0_r.
  - destruct (lookup_lt_is_Some_2 r v) as [x Hx]; [lia |].
    destruct (IH (zip_with Nat.add acc (map Nat.b2n (map P r))) (a + Nat.b2n (P x)))
      as [Hlen' Htotal].
    + rewrite length_zip_with, !length_map. lia.
    + rewrite lookup_zip_with, Hacc. simpl.
      change (map Nat.b2n (map P r)) with (Nat.b2n <$> (P <$> r)).
      by rewrite !list_lookup_fmap, Hx.
    + split; [done |]. rewrite Htotal. f_equal.
      unfold count_at. simpl. unfold voxel_passes at 2. rewrite Hx.
      destruct (P x); simpl; lia.
Qed.

(** Summing the tests along the first axis counts, per voxel, the images
    that pass. *)
Lemma sum_axis0_counts (rows : list (list Q)) :
  rows ≠ [] → Forall (λ r, length r = n) rows →
  length (Np.sum_axis0 (map (map P) rows)) = n ∧
  Np.sum_axis0 (map (map P) rows) !! v = Some (count_at P v rows).
Proof.
  destruct rows as [|r rs]; [done |]. intros _ [Hr Hrs]%Forall_cons.
  destruct (lookup_lt_is_Some_2 r v) as [x Hx]; [lia |].
  unfold Np.sum_axis0. simpl.
  destruct (fold_column_counts rs Hrs (map Nat.b2n (map P r)) (Nat.b2n (P x)))
    as [Hlen Htotal].
  - by rewrite !length_map.
  - change (map Nat.b2n (map P r)) with (Nat.b2n <$> (P <$> r)).
    by rewrite !list_lookup_fmap, Hx.
  - split; [done |]. rewrite Htotal. f_equal.
    unfold count_at. simpl. unfold voxel_passes at 2. rewrite Hx.
    destruct (P x); simpl; lia.
Qed.
End Columns.

Lemma mean_axis0_uniform (np_add np_divide : Q → Q → Q) (rows : list (list Q)) (n : nat) :
  Forall (λ r, length r = n) rows → ∃ avg, Np.mean_axis0 np_add np_divide rows = Ok avg.
Proof.
  intros Hrows. unfold Np.mean_axis0. rewrite (array2_uniform rows n Hrows). simpl.
  destruct rows; eauto.
Qed.

Example sum_axis0_two_images :
  Np.sum_axis0 (Np.gt [[1; -1]; [2; -2]]%Q 0) = [2; 0].
Proof. reflexivity. Qed.

End NpFacts.

(** ** The information mapping of a new result *)

Module InfoFacts.
Import Info.

Lemma od_get_od_set (key key' : string) (v : scalar) (d : odict) :
  od_get key (od_set key' v d) = if String.eqb key' key then Some v else od_get key d.
Proof.
  induction d as [|[k w] d IH]; simpl.
  - done.
  - destruct (String.eqb k key') eqn:Hk; simpl.
    + apply String.eqb_eq in Hk as ->. by destruct (String.eqb key' key).
    + rewrite IH. destruct (String.eqb k key) eqn:Hkk; [| done].
      apply String.eqb_eq in Hkk as ->. rewrite String.eqb_sym in Hk. by rewrite Hk.
Qed.

(** An entry of [OrderedDict(pairs)] is one of the pairs. *)
Lemma od_get_of_pairs (key : string) (v : scalar) (pairs : list (string * scalar)) :
  od_get key (od_of_pairs pairs) = Some v → (key, v) ∈ pairs.
Proof.
  unfold od_of_pairs.
  enough (∀ d, od_get key (fold_left (λ d kv, od_set kv.1 kv.2 d) pairs d) = Some v →
               (key, v) ∈ pairs ∨ od_get key d = Some v) as Hgen.
  { intros H. by destruct (Hgen [] H). }
  induction pairs as [|[k w] pairs IH]; intros d; simpl; [auto |].
  intros [Hin | Hd]%IH.
  - left. by right.
  - rewrite od_get_od_set in Hd. destruct (String.eqb k key) eqn:Hk; [| auto].
    apply String.eqb_eq in Hk as ->. injection Hd as ->. left. by left.
Qed.

(** Every value given under [key] is text. *)
Definition text_valued (key : string) (pairs : list (string * scalar)) : Prop :=
  ∀ v, (key, v) ∈ pairs → ∃ s, v = SStr s.

(** [Info(pairs)] succeeds when the expressions among the pairs are text. *)
Lemma init_Ok (pairs : list (string * scalar)) :
  text_valued "expression" pairs → text_valued "contrary expression" pairs →
  ∃ i, init pairs = Ok i ∧ items i = od_of_pairs pairs.
Proof.
  intros He Hc. unfold init, get_shorthand.
  destruct (od_get "expression" _) as [e|] eqn:Hge; [| simpl; eauto].
  apply od_get_of_pairs, He in Hge as [s ->]. simpl.
  rewrite NsInfoFacts.shorten_expr_Ok. simpl.
  destruct (od_get "contrary expression" _) as [c|] eqn:Hgc; [| simpl; eauto].
  apply od_get_of_pairs, Hc in Hgc as [s' ->]. simpl.
  rewrite NsInfoFacts.shorten_expr_Ok. simpl. eauto.
Qed.

Lemma text_valued_app (key : string) (base extra : list (string * scalar)) :
  key ∉ base.*1 → text_valued key extra → text_valued key (base ++ extra).
Proof.
  intros Hbase Hextra v [Hin | Hin]%elem_of_app; [| auto].
  exfalso. apply Hbase. apply list_elem_of_fmap. by exists (key, v).
Qed.

End InfoFacts.

(** ** Running [mean] and [conjunction] on a heap *)

Module MetaFacts.
Import MetaAnalysisPlus.

Lemma bind_run {A B} (c : M A) (k : A → M B) (h h' : heap) (a : A) :
  c h = (Ok a, h') → (c ≫= k) h = k a h'.
Proof. unfold mbind, M_bind. by intros ->. Qed.

Lemma bind_raise {A B} (c : M A) (k : A → M B) (h h' : heap) (e : exn) :
  c h = (Raise e, h') → (c ≫= k) h = (Raise e, h').
Proof. unfold mbind, M_bind. by intros ->. Qed.

(** The analysis behind [l] holds [img] under [name]. *)
Definition has_image (h : heap) (name : string) (l : loc) (img : list Q) : Prop :=
  ∃ m, h !! l = Some (OMeta m) ∧ images m !! name = Some img.

Lemma get_meta_run (attr : string) (h : heap) (l : loc) (m : t) :
  h !! l = Some (OMeta m) → get_meta attr l h = (Ok m, h).
Proof. unfold get_meta. by intros ->. Qed.

Lemma get_image_run (h : heap) (name : string) (l : loc) (img : list Q) :
  has_image h name l img → get_image name l h = (Ok img, h).
Proof.
  intros (m & Hl & Himg). unfold get_image.
  rewrite (bind_run _ _ h h m (get_meta_run "images" h l m Hl)). by rewrite Himg.
Qed.

Lemma mapM_get_image (h : heap) (name : string) (metas : list loc) (rows : list (list Q)) :
  Forall2 (has_image h name) metas rows →
  mapM (get_image name) metas h = (Ok rows, h).
Proof.
  induction 1 as [|l img metas rows Hl _ IH]; [done |].
  change (mapM (get_image name) (l :: metas))
    with (y ← get_image name l; k ← mapM (get_image name) metas; mret (y :: k)).
  rewrite (bind_run _ _ h h img (get_image_run h name l img Hl)).
  by rewrite (bind_run _ _ h h rows IH).
Qed.

(** A computation that reads the heap, run over a list of keys: when each
    key yields a pair under that key, so does the whole, in order. *)
Lemma mapM_keyed {V} (f : string → M (string * V)) (h : heap) (keys : list string) :
  (∀ k, k ∈ keys → ∃ v, f k h = (Ok (k, v), h)) →
  ∃ res, mapM f keys h = (Ok res, h) ∧ res.*1 = keys.
Proof.
  induction keys as [|k keys IH]; intros Hf.
  - by exists [].
  - destruct (Hf k) as [v Hk]; [by left |].
    destruct IH as (res & Hres & Hkeys); [intros k' Hk'; apply Hf; by right |].
    exists ((k, v) :: res). split; [| by rewrite fmap_cons, Hkeys].
    change (mapM f (k :: keys)) with (y ← f k; r ← mapM f keys; mret (y :: r)).
    rewrite (bind_run _ _ h h (k, v) Hk). by rewrite (bind_run _ _ h h res Hres).
Qed.

Lemma fresh_unused (h : heap) : h !! fresh (dom h) = None.
Proof. apply not_elem_of_dom, is_fresh. Qed.

(** The images a list of analyses holds under one name, in order. *)
Lemma images_of_all (h : heap) (name : string) (metas : list loc) :
  (∀ l, l ∈ metas → ∃ img, has_image h name l img) →
  ∃ rows, Forall2 (has_image h name) metas rows.
Proof.
  induction metas as [|l metas IH]; intros Hall.
  - by exists [].
  - destruct (Hall l) as [img Himg]; [by left |].
    destruct IH as [rows Hrows]; [intros l' Hl'; apply Hall; by right |].
    exists (img :: rows). by constructor.
Qed.

(** Reading an image leaves the heap as it is. *)
Lemma get_image_state (name : string) (l : loc) (h : heap) :
  (get_image name l h).2 = h.
Proof.
  unfold get_image, mbind, M_bind, get_meta.
  destruct (h !! l) as [[i|m]|]; simpl; try done.
  by destruct (images m !! name).
Qed.

Lemma mapM_state {A B} (f : A → M B) (l : list A) :
  (∀ x h, (f x h).2 = h) → ∀ h, (mapM f l h).2 = h.
Proof.
  intros Hf. induction l as [|x l IH]; intros h; [done |].
  change (mapM f (x :: l)) with (y ← f x; k ← mapM f l; mret (y :: k)).
  unfold mbind, M_bind. specialize (Hf x h).
  destruct (f x h) as [[y|e] h1]; simpl in Hf; subst h1; [| done].
  specialize (IH h). by destruct (mapM f l h) as [[k|e] h2].
Qed.

(** The converse of [mapM_keyed], for computations that only read. *)
Lemma mapM_keyed_inv {V} (f : string → M (string * V)) (keys : list string)
    (h : heap) (res : list (string * V)) (h' : heap) :
  (∀ k h0, (f k h0).2 = h0) →
  (∀ k h0 p, (f k h0).1 = Ok p → p.1 = k) →
  mapM f keys h = (Ok res, h') → h' = h ∧ res.*1 = keys.
Proof.
  intros Hstate Hkey. revert res.
  induction keys as [|k keys IH]; intros res Hrun.
  - by injection Hrun as <- <-.
  - change (mapM f (k :: keys)) with (y ← f k; r ← mapM f keys; mret (y :: r)) in Hrun.
    unfold mbind, M_bind in Hrun.
    pose proof (Hstate k h) as Hs. pose proof (Hkey k h) as Hk.
    destruct (f k h) as [[p|e] h1]; simpl in Hs, Hk; subst h1; [| done].
    destruct (mapM f keys h) as [[r|e] h2]; [| done].
    injection Hrun as <- <-. destruct (IH r eq_refl) as [-> Hr].
    split; [done |]. by rewrite fmap_cons, Hr, (Hk p eq_refl).
Qed.

Section Floats.
Context (np_add np_divide : Q → Q → Q).

(** The body of the loop of [mean], for one image name. *)
Lemma mean_image_state (metas : list loc) (img : string) (h : heap) :
  ((rows ← mapM (get_image img) metas;
    avg ← lift (Np.mean_axis0 np_add np_divide rows);
    mret (img, avg)) h).2 = h.
Proof.
  unfold mbind, M_bind.
  pose proof (mapM_state (get_image img) metas (get_image_state img) h) as Hs.
  destruct (mapM (get_image img) metas h) as [[rows|e] h1]; simpl in Hs; subst h1; [| done].
  unfold lift. by destruct (Np.mean_axis0 np_add np_divide rows).
Qed.

Lemma mean_image_key (metas : list loc) (img : string) (h : heap) (p : string * list Q) :
  ((rows ← mapM (get_image img) metas;
    avg ← lift (Np.mean_axis0 np_add np_divide rows);
    mret (img, avg)) h).1 = Ok p → p.1 = img.
Proof.
  unfold mbind, M_bind.
  destruct (mapM (get_image img) metas h) as [[rows|e] h1]; [| done].
  unfold lift. destruct (Np.mean_axis0 np_add np_divide rows); [| done].
  by intros [= <-].
Qed.

(** *** [mean] *)

(** C5: [mean] of the empty list raises [ValueError] at once: nothing is
    read, computed or allocated, the heap is as it was. *)
Theorem mean_empty (h : heap) :
  mean np_add np_divide [] h = (Raise (ValueError "Empty list"), h).
Proof. reflexivity. Qed.

(** C4: [mean] of a one-element list returns the reference it was given, the
    very object of the list, and leaves the heap (hence that object's info,
    dataset and images) untouched. *)
Theorem mean_singleton (h : heap) (only : loc) :
  mean np_add np_divide [only] h = (Ok only, h) ∧
  ∀ r h', mean np_add np_divide [only] h = (Ok r, h') → r = only ∧ h' !! r = h !! only.
Proof.
  split; [reflexivity |]. intros r h' [= <- <-]. done.
Qed.

(** C10: [mean] of two or more analyses returns an object whenever the
    analyses have one set of image names (and, per name, images of one shape);
    and the object it returns is new, carries the first element's [Info]
    reference and its dataset, and has the image names of the first element. *)
Theorem mean_keeps_first (h : heap) (first second : loc) (rest : list loc) (m0 : t) :
  h !! first = Some (OMeta m0) →
  ((∀ l, l ∈ first :: second :: rest →
      ∃ m, h !! l = Some (OMeta m) ∧ dom (images m) = dom (images m0)) →
   (∀ name, ∃ n, ∀ l img, l ∈ first :: second :: rest →
      has_image h name l img → length img = n) →
   ∃ r h', mean np_add np_divide (first :: second :: rest) h = (Ok r, h')) ∧
  (∀ r h', mean np_add np_divide (first :: second :: rest) h = (Ok r, h') →
     ∃ m', h' = <[r := OMeta m']> h ∧ h !! r = None ∧
       info m' = info m0 ∧ dataset m' = dataset m0 ∧
       dom (images m') = dom (images m0)).
Proof.
  intros Hfirst. split.
  - intros Hnames Hshape. unfold mean.
    rewrite (bind_run _ _ h h m0 (get_meta_run "images" h first m0 Hfirst)).
    match goal with
    | |- context [mapM ?f ?keys] =>
        destruct (mapM_keyed f h keys) as (res & Hres & Hkeys)
    end.
    { intros name Hname.
      assert (name ∈ dom (images m0)) as Hdom.
      { apply list_elem_of_fmap in Hname as ([k img] & -> & Hin).
        apply elem_of_map_to_list in Hin. by apply elem_of_dom_2 in Hin. }
      destruct (images_of_all h name (first :: second :: rest)) as [rows Hrows].
      { intros l Hl. destruct (Hnames l Hl) as (m & Hm & Hdm).
        rewrite <- Hdm in Hdom. apply elem_of_dom in Hdom as [img Himg].
        exists img, m. done. }
      destruct (Hshape name) as [n Hn].
      destruct (NpFacts.mean_axis0_uniform np_add np_divide rows n) as [avg Havg].
      { apply Forall_forall. intros img Himg.
        destruct (proj1 (list_elem_of_lookup _ _) Himg) as [i Hi].
        destruct (Forall2_lookup_r _ _ _ _ _ Hrows Hi) as (l & Hl & Hhas).
        apply (Hn l); [| done]. by apply list_elem_of_lookup_2 in Hl. }
      exists avg.
      rewrite (bind_run _ _ h h rows (mapM_get_image h name _ rows Hrows)).
      unfold lift at 1. rewrite Havg. done. }
    rewrite (bind_run _ _ h h res Hres). unfold new. eexists _, _. reflexivity.
  - intros r h'. unfold mean.
    rewrite (bind_run _ _ h h m0 (get_meta_run "images" h first m0 Hfirst)).
    match goal with
    | |- context [mapM ?f ?keys] =>
        pose proof (mapM_keyed_inv f keys h) as Hinv;
        destruct (mapM f keys h) as [[res|e] h1] eqn:Hres
    end.
    + destruct (Hinv res h1) as [-> Hkeys]; [apply mean_image_state | apply mean_image_key | done |].
      rewrite (bind_run _ _ h h res Hres). unfold new.
      intros [= <- <-]. eexists. split; [reflexivity |]. simpl.
      split_and!; [apply fresh_unused | done | done |].
      rewrite dom_list_to_map_L, Hkeys.
      rewrite <- (list_to_map_to_list (images m0)) at 2.
      by rewrite dom_list_to_map_L.
    + rewrite (bind_raise _ _ h h1 e Hres). done.
Qed.

End Floats.

(** With exact addition and division in place of numpy's rounding ones. *)
Example mean_two_images :
  let h : heap :=
    {[ 1%positive := OInfo (Info.mk [("expression", Info.SStr "pain")] "pain");
       2%positive := OMeta (mk 1%positive 7 {[ "pA" := [1; 3]%Q ]});
       3%positive := OMeta (mk 1%positive 7 {[ "pA" := [3; 4]%Q ]}) ]} in
  (mean Qplus Qdiv [2; 3]%positive h).1 = Ok 4%positive ∧
  (mean Qplus Qdiv [2; 3]%positive h).2 !! 4%positive
  = Some (OMeta (mk 1%positive 7 {[ "pA" := [4 / 2; 7 / 2]%Q ]})).
Proof. vm_compute. done. Qed.

(** Two analyses of one expression, sharing their [Info] and dataset. *)
Definition two_analyses : heap :=
  {[ 1%positive := OInfo (Info.mk [("expression", Info.SStr "pain")] "pain");
     2%positive := OMeta (mk 1%positive 7 {[ "pA" := [1; -1]%Q ]});
     3%positive := OMeta (mk 1%positive 7 {[ "pA" := [2; -2]%Q ]}) ]}.

Lemma two_analyses_pA (name : string) (l : loc) (img : list Q) :
  l ∈ [2; 3]%positive → has_image two_analyses name l img →
  name = "pA" ∧ length img = 2.
Proof.
  intros Hl (m & Hm & Himg).
  repeat (apply elem_of_cons in Hl as [->|Hl]); try by apply elem_of_nil in Hl.
  all: unfold two_analyses in Hm; simplify_map_eq; done.
Qed.

Lemma mean_keeps_first_witness :
  let m0 := mk 1%positive 7 {[ "pA" := [1; -1]%Q ]} in
  ∃ r h' m',
    mean Qplus Qdiv [2; 3]%positive two_analyses = (Ok r, h') ∧
    h' = <[r := OMeta m']> two_analyses ∧
    two_analyses !! r = None ∧
    info m' = info m0 ∧ dataset m' = dataset m0 ∧
    dom (images m') = dom (images m0).
Proof.
  intros m0.
  destruct (mean_keeps_first Qplus Qdiv two_analyses 2%positive 3%positive [] m0 eq_refl)
    as [Hreturns Hresult].
  destruct Hreturns as (r & h' & Hrun).
  - intros l Hl.
    repeat (apply elem_of_cons in Hl as [->|Hl]); try by apply elem_of_nil in Hl.
    + eexists. split; [reflexivity |]. done.
    + eexists. split; [reflexivity |]. simpl. by rewrite !dom_singleton_L.
  - intros name. exists 2. intros l img Hl Himg.
    by destruct (two_analyses_pA name l img Hl Himg).
  - destruct (Hresult r h' Hrun) as (m' & Hm').
    exists r, h', m'. split; [exact Hrun | exact Hm'].
Defined.

End MetaFacts.

(** ** [conjunction] *)

Module ConjunctionFacts.
Import MetaAnalysisPlus MetaFacts NpFacts InfoFacts.

(** At least one threshold, and two thresholds differ. *)
Definition valid_thresholds (lower_thr upper_thr : option Q) : Prop :=
  match lower_thr, upper_thr with
  | None, None => False
  | Some lo, Some up => ¬ (lo == up)%Q
  | _, _ => True
  end.

(** The threshold configurations and, for each, the test a voxel value has
    to pass to be counted. *)
Inductive criterion : option Q → option Q → (Q → bool) → Prop :=
| only_lower lo :
    criterion (Some lo) None (λ x, Np.Qlt_bool lo x)
| only_upper up :
    criterion None (Some up) (λ x, Np.Qlt_bool x up)
| both_inside lo up :
    (lo < up)%Q →
    criterion (Some lo) (Some up) (λ x, Np.Qlt_bool lo x && Np.Qlt_bool x up)
| both_outside lo up :
    (up < lo)%Q →
    criterion (Some lo) (Some up) (λ x, Np.Qlt_bool lo x || Np.Qlt_bool x up).

Lemma criterion_valid lower_thr upper_thr P :
  criterion lower_thr upper_thr P → valid_thresholds lower_thr upper_thr.
Proof.
  destruct 1 as [lo | up | lo up Hlt | lo up Hlt]; simpl; [done | done | |].
  - intros Heq. rewrite Heq in Hlt. by apply Qlt_irrefl in Hlt.
  - intros Heq. rewrite Heq in Hlt. by apply Qlt_irrefl in Hlt.
Qed.

(** Thresholds the call accepts are in one of the four configurations. *)
Lemma valid_thresholds_criterion (lower_thr upper_thr : option Q) :
  valid_thresholds lower_thr upper_thr → ∃ P, criterion lower_thr upper_thr P.
Proof.
  destruct lower_thr as [lo|], upper_thr as [up|]; simpl; [| | | done].
  - intros Hne. destruct (Q_dec lo up) as [[Hlt | Hgt] | Heq]; [| | done].
    + eexists. by apply both_inside.
    + eexists. by apply both_outside.
  - intros _. eexists. apply only_lower.
  - intros _. eexists. apply only_upper.
Qed.

(** The image made of the column sums of a test has the shape of the source
    images and holds, at each voxel, the number of images that pass there. *)
Lemma as_image_counts (P : Q → bool) (n : nat) (rows : list (list Q)) :
  rows ≠ [] → Forall (λ img, length img = n) rows →
  length (Np.as_image (Np.sum_axis0 (map (map P) rows))) = n ∧
  ∀ v, v < n →
    Np.as_image (Np.sum_axis0 (map (map P) rows)) !! v
    = Some (inject_Z (Z.of_nat (count_at P v rows))).
Proof.
  intros Hne Hshape. split.
  - unfold Np.as_image. rewrite length_map. destruct n as [|n'].
    + destruct rows as [|r1 rs]; [done |]. apply Forall_cons in Hshape as [Hr1 Hrs].
      unfold Np.sum_axis0. simpl.
      apply length_zero_iff_nil in Hr1 as ->. simpl.
      clear -Hrs. induction Hrs as [|r2 rs Hr2 _ IH]; [done |].
      simpl. apply length_zero_iff_nil in Hr2 as ->. exact IH.
    + by destruct (sum_axis0_counts P (S n') 0 (Nat.lt_0_succ n') rows Hne Hshape).
  - intros v Hv. unfold Np.as_image.
    change (map ?f ?l) with (f <$> l). rewrite list_lookup_fmap.
    by destruct (sum_axis0_counts P n v Hv rows Hne Hshape) as [_ ->].
Qed.

(** Extra information whose expressions, if any, are text. *)
Definition valid_extra_info (extra_info : list (string * Info.scalar)) : Prop :=
  text_valued "expression" extra_info ∧ text_valued "contrary expression" extra_info.

Section Builtins.
Context (py_str : Q → string).

Lemma thr_eqb_valid lower_thr upper_thr :
  valid_thresholds lower_thr upper_thr →
  is_none lower_thr && is_none upper_thr = false ∧ thr_eqb lower_thr upper_thr = false.
Proof.
  destruct lower_thr as [lo|], upper_thr as [up|]; simpl; try done.
  intros Hne. split; [done |]. apply not_true_iff_false. by rewrite Qeq_bool_iff.
Qed.

Lemma count_image_valid src_imgs lower_thr upper_thr :
  valid_thresholds lower_thr upper_thr →
  ∃ counts comp_name, count_image py_str src_imgs lower_thr upper_thr = Ok (counts, comp_name).
Proof.
  destruct lower_thr as [lo|], upper_thr as [up|]; simpl; try done; eauto.
  intros _. destruct (Np.Qlt_bool lo up); eauto.
Qed.

(** Under each configuration the counts are the column sums of its test. *)
Lemma count_image_criterion src_imgs lower_thr upper_thr P :
  criterion lower_thr upper_thr P →
  ∃ comp_name, count_image py_str src_imgs lower_thr upper_thr
               = Ok (Np.sum_axis0 (map (map P) src_imgs), comp_name).
Proof.
  destruct 1 as [lo | up | lo up Hlt | lo up Hlt]; simpl; eauto.
  - apply Qlt_bool_iff in Hlt as ->. rewrite band_gt_lt. eauto.
  - assert (Np.Qlt_bool lo up = false) as ->.
    { apply not_true_iff_false. rewrite Qlt_bool_iff. intros Hlt'.
      exact (Qlt_irrefl lo (Qlt_trans _ _ _ Hlt' Hlt)). }
    rewrite bor_gt_lt. eauto.
Qed.

(** The information a result is built with. *)
Definition result_pairs (image_name comp_name : string)
    (extra_info : list (string * Info.scalar)) : list (string * Info.scalar) :=
  [("based on", Info.SStr image_name); ("criterion", Info.SStr comp_name)] ++ extra_info.

Lemma result_pairs_Ok image_name comp_name extra_info :
  valid_extra_info extra_info →
  ∃ inf, Info.init (result_pairs image_name comp_name extra_info) = Ok inf.
Proof.
  intros [Hexpr Hcontr].
  destruct (init_Ok (result_pairs image_name comp_name extra_info)) as (inf & Hinit & _);
    [| | by exists inf].
  all: apply text_valued_app; [| done]; simpl.
  all: rewrite !not_elem_of_cons; split_and!; [done.. | apply not_elem_of_nil].
Qed.

(** A call whose images form an array and whose information can be built
    runs to the end: it allocates an [Info] and the result object, which holds
    the counts as its only image and the dataset of the first analysis; every
    other object is as it was. *)
Lemma conjunction_run (h : heap) (metas : list loc) (image_name : string)
    (lower_thr upper_thr : option Q) (expression : option string)
    (extra_info : list (string * Info.scalar)) (rows : list (list Q))
    (counts : list nat) (comp_name : string) (inf : Info.t) :
  metas ≠ [] →
  Forall2 (has_image h image_name) metas rows →
  valid_thresholds lower_thr upper_thr →
  Np.array2 rows = Ok rows →
  count_image py_str rows lower_thr upper_thr = Ok (counts, comp_name) →
  Info.init (result_pairs image_name comp_name extra_info) = Ok inf →
  ∃ r i m0 h',
    conjunction py_str metas image_name lower_thr upper_thr expression extra_info h
    = (Ok r, h') ∧
    head metas ≫= (h !!.) = Some (OMeta m0) ∧
    h !! r = None ∧ h !! i = None ∧ r ≠ i ∧
    h' !! r = Some (OMeta (mk i (dataset m0) {[ "conjunction" := Np.as_image counts ]})) ∧
    is_Some (h' !! i) ∧
    ∀ l, l ≠ r → l ≠ i → h' !! l = h !! l.
Proof.
  intros Hne Hrows Hthr Harr Hcount Hinit.
  destruct metas as [|first metas']; [done |]. clear Hne.
  pose proof Hrows as Hrows'. apply Forall2_cons_inv_l in Hrows'
    as (img0 & rows' & (m0 & Hfirst & _) & _ & _).
  set (pairs := result_pairs image_name comp_name extra_info) in *.
  unfold conjunction. destruct (thr_eqb_valid _ _ Hthr) as [-> ->].
  rewrite (bind_run _ _ h h rows (mapM_get_image h image_name _ rows Hrows)).
  unfold lift at 1 2. rewrite Harr.
  rewrite (bind_run _ _ h h rows eq_refl), Hcount.
  rewrite (bind_run _ _ h h (counts, comp_name) eq_refl).
  change ([("based on", Info.SStr image_name); ("criterion", Info.SStr comp_name)] ++ extra_info)
    with pairs.
  set (i := fresh (dom h)).
  assert (h !! i = None) as Hi by apply fresh_unused.
  assert (first ≠ i) as Hfi by congruence.
  assert (new_info pairs h = (Ok i, <[i := OInfo inf]> h)) as Hnew.
  { unfold new_info, lift. by rewrite (bind_run _ _ h h inf (f_equal (., h) Hinit)). }
  destruct (truthy expression) as [e|].
  - assert (∀ nm, set_name i nm (<[i := OInfo inf]> h)
                  = (Ok (), <[i := OInfo (Info.set_name nm inf)]> h)) as Hset.
    { intros nm. unfold set_name. by rewrite lookup_insert_eq, insert_insert_eq. }
    rewrite NsInfoFacts.shorten_expr_Ok.
    set (h1 := <[i := OInfo (Info.set_name
                   (strip punctuation (NsInfoFacts.first_field " " e) +:+ "_" +:+ image_name
                      +:+ comp_name) inf)]> h).
    set (r := fresh (dom h1)).
    assert (h1 !! r = None) as Hr by apply fresh_unused.
    assert (r ≠ i) as Hri.
    { intros Heq. rewrite Heq in Hr. unfold h1 in Hr. by rewrite lookup_insert_eq in Hr. }
    exists r, i, m0, (<[r := OMeta (mk i (dataset m0) {[ "conjunction" := Np.as_image counts ]})]> h1).
    split_and!; try done.
    + erewrite bind_run; [| erewrite bind_run; [| exact Hnew];
                            erewrite bind_run; [| reflexivity];
                            erewrite bind_run; [| apply Hset]; reflexivity].
      erewrite bind_run; [| reflexivity].
      erewrite bind_run; [| apply get_meta_run; unfold h1; by rewrite lookup_insert_ne].
      reflexivity.
    + unfold h1 in Hr. by rewrite lookup_insert_ne in Hr.
    + by rewrite lookup_insert_eq.
    + rewrite lookup_insert_ne by done. unfold h1. by rewrite lookup_insert_eq.
    + intros l Hlr Hli. unfold h1. by rewrite !lookup_insert_ne.
  - set (h1 := <[i := OInfo inf]> h) in *.
    set (r := fresh (dom h1)).
    assert (h1 !! r = None) as Hr by apply fresh_unused.
    assert (r ≠ i) as Hri.
    { intros Heq. rewrite Heq in Hr. unfold h1 in Hr. by rewrite lookup_insert_eq in Hr. }
    exists r, i, m0, (<[r := OMeta (mk i (dataset m0) {[ "conjunction" := Np.as_image counts ]})]> h1).
    split_and!; try done.
    + erewrite bind_run; [| reflexivity].
      erewrite bind_run; [| reflexivity].
      erewrite bind_run; [| by apply get_meta_run].
      unfold new. erewrite bind_run; [| exact Hnew]. reflexivity.
    + unfold h1 in Hr. by rewrite lookup_insert_ne in Hr.
    + by rewrite lookup_insert_eq.
    + rewrite lookup_insert_ne by done. unfold h1. by rewrite lookup_insert_eq.
    + intros l Hlr Hli. unfold h1. by rewrite !lookup_insert_ne.
Qed.
(** C3: without any threshold, and with two equal thresholds, [conjunction]
    raises [ValueError] before it reads an image: whatever the list and the
    image name, the outcome is that error and the heap is as it was (nothing
    was computed or constructed). *)
Theorem conjunction_rejects_thresholds (h : heap) (metas : list loc) (image_name : string)
    (expression : option string) (extra_info : list (string * Info.scalar)) :
  conjunction py_str metas image_name None None expression extra_info h
  = (Raise (ValueError "Must specify at least one threshold"), h) ∧
  ∀ lo up, (lo == up)%Q →
    conjunction py_str metas image_name (Some lo) (Some up) expression extra_info h
    = (Raise (ValueError "Lower and upper thresholds must be different"), h).
Proof.
  split; [reflexivity |]. intros lo up Heq. unfold conjunction. simpl.
  apply Qeq_bool_iff in Heq as ->. reflexivity.
Qed.

(** Without a common shape the images do not form an array, and the call
    raises. *)
Lemma conjunction_raises_shape (h : heap) (metas : list loc) (image_name : string)
    (lower_thr upper_thr : option Q) (expression : option string)
    (extra_info : list (string * Info.scalar)) (rows : list (list Q)) (e : exn) :
  Forall2 (has_image h image_name) metas rows →
  valid_thresholds lower_thr upper_thr →
  Np.array2 rows = Raise e →
  conjunction py_str metas image_name lower_thr upper_thr expression extra_info h
  = (Raise e, h).
Proof.
  intros Hrows Hthr Harr.
  unfold conjunction. destruct (thr_eqb_valid _ _ Hthr) as [-> ->].
  rewrite (bind_run _ _ h h rows (mapM_get_image h image_name _ rows Hrows)).
  unfold lift at 1. rewrite Harr. done.
Qed.

(** When the information cannot be built, the call raises. *)
Lemma conjunction_raises_info (h : heap) (metas : list loc) (image_name : string)
    (lower_thr upper_thr : option Q) (expression : option string)
    (extra_info : list (string * Info.scalar)) (rows : list (list Q))
    (counts : list nat) (comp_name : string) (e : exn) :
  metas ≠ [] →
  Forall2 (has_image h image_name) metas rows →
  valid_thresholds lower_thr upper_thr →
  Np.array2 rows = Ok rows →
  count_image py_str rows lower_thr upper_thr = Ok (counts, comp_name) →
  Info.init (result_pairs image_name comp_name extra_info) = Raise e →
  conjunction py_str metas image_name lower_thr upper_thr expression extra_info h
  = (Raise e, h).
Proof.
  intros Hne Hrows Hthr Harr Hcount Hinit.
  destruct metas as [|first metas']; [done |]. clear Hne.
  pose proof Hrows as Hrows'. apply Forall2_cons_inv_l in Hrows'
    as (img0 & rows' & (m0 & Hfirst & _) & _ & _).
  unfold conjunction. destruct (thr_eqb_valid _ _ Hthr) as [-> ->].
  rewrite (bind_run _ _ h h rows (mapM_get_image h image_name _ rows Hrows)).
  unfold lift at 1 2. rewrite Harr.
  rewrite (bind_run _ _ h h rows eq_refl), Hcount.
  rewrite (bind_run _ _ h h (counts, comp_name) eq_refl).
  change ([("based on", Info.SStr image_name); ("criterion", Info.SStr comp_name)] ++ extra_info)
    with (result_pairs image_name comp_name extra_info).
  assert (new_info (result_pairs image_name comp_name extra_info) h = (Raise e, h)) as Hnew.
  { unfold new_info, lift. by rewrite (bind_raise _ _ h h e (f_equal (., h) Hinit)). }
  destruct (truthy expression) as [ex|].
  - erewrite bind_raise; [reflexivity |]. erewrite bind_raise; [reflexivity | exact Hnew].
  - erewrite bind_run; [| reflexivity].
    erewrite bind_run; [| reflexivity].
    erewrite bind_run; [| by apply get_meta_run].
    unfold new. erewrite bind_raise; [reflexivity | exact Hnew].
Qed.

(** C1: take a nonempty list of analyses that all hold the named image, and
    one of the four threshold configurations with its test [P] (above
    [lower_thr]; below [upper_thr]; both, when [lower_thr < upper_thr]; either,
    when [lower_thr > upper_thr]). Then [conjunction] returns an object
    whenever the images have one shape and the expressions in [extra_info] are
    text; and in the object it returns, the 'conjunction' image has the shape of
    the source images and holds, at each voxel, the number of source images
    whose value there passes [P]. *)
Theorem conjunction_counts (h : heap) (metas : list loc) (image_name : string)
    (lower_thr upper_thr : option Q) (expression : option string)
    (extra_info : list (string * Info.scalar)) (rows : list (list Q))
    (P : Q → bool) :
  metas ≠ [] →
  Forall2 (has_image h image_name) metas rows →
  criterion lower_thr upper_thr P →
  (∀ n, Forall (λ img, length img = n) rows → valid_extra_info extra_info →
     ∃ r h',
       conjunction py_str metas image_name lower_thr upper_thr expression extra_info h
       = (Ok r, h')) ∧
  (∀ r h',
     conjunction py_str metas image_name lower_thr upper_thr expression extra_info h
     = (Ok r, h') →
     ∃ m img,
       h' !! r = Some (OMeta m) ∧
       images m !! "conjunction" = Some img ∧
       Forall (λ src, length src = length img) rows ∧
       ∀ v, v < length img →
         img !! v = Some (inject_Z (Z.of_nat (count_at P v rows)))).
Proof.
  intros Hne Hrows Hcrit.
  pose proof (criterion_valid _ _ _ Hcrit) as Hthr.
  destruct (count_image_criterion rows _ _ P Hcrit) as [comp_name Hcount].
  split.
  - intros n Hshape Hextra.
    destruct (result_pairs_Ok image_name comp_name extra_info Hextra) as [inf Hinit].
    destruct (conjunction_run h metas image_name lower_thr upper_thr expression extra_info
                rows _ comp_name inf Hne Hrows Hthr (array2_uniform rows n Hshape) Hcount Hinit)
      as (r & i & m0 & h' & Hrun & _).
    by exists r, h'.
  - intros r h' Hrun.
    destruct (array2_inv rows) as [[e Harr] | [Harr [n Hshape]]].
    { rewrite (conjunction_raises_shape h metas image_name lower_thr upper_thr expression
                 extra_info rows e Hrows Hthr Harr) in Hrun. discriminate Hrun. }
    destruct (Info.init (result_pairs image_name comp_name extra_info)) as [inf|e] eqn:Hinit.
    2: { rewrite (conjunction_raises_info h metas image_name lower_thr upper_thr expression
                    extra_info rows _ comp_name e Hne Hrows Hthr Harr Hcount Hinit) in Hrun.
         discriminate Hrun. }
    destruct (conjunction_run h metas image_name lower_thr upper_thr expression extra_info
                rows _ comp_name inf Hne Hrows Hthr Harr Hcount Hinit)
      as (r0 & i & m0 & h0 & Hrun0 & _ & _ & _ & _ & Hr & _).
    rewrite Hrun0 in Hrun. injection Hrun as <- <-.
    assert (rows ≠ []) as Hrows_ne.
    { intros ->. apply Forall2_nil_inv_r in Hrows. done. }
    assert (length (Np.as_image (Np.sum_axis0 (map (map P) rows))) = n) as Hlen.
    { unfold Np.as_image. rewrite length_map. destruct n as [|n'].
      - destruct rows as [|r1 rs]; [done |]. apply Forall_cons in Hshape as [Hr1 Hrs].
        unfold Np.sum_axis0. simpl.
        apply length_zero_iff_nil in Hr1 as ->. simpl.
        clear -Hrs. induction Hrs as [|r2 rs Hr2 _ IH]; [done |].
        simpl. apply length_zero_iff_nil in Hr2 as ->. exact IH.
      - by destruct (sum_axis0_counts P (S n') 0 (Nat.lt_0_succ n') rows Hrows_ne Hshape). }
    eexists _, _. split_and!; [exact Hr | apply lookup_singleton_eq | |].
    + by rewrite Hlen.
    + rewrite Hlen. intros v Hv. unfold Np.as_image.
      change (map ?f ?l) with (f <$> l). rewrite list_lookup_fmap.
      destruct (sum_axis0_counts P n v Hv rows Hrows_ne Hshape) as [_ ->]. done.
Qed.

(** C6: a valid call (a nonempty list of analyses that all hold the named
    image, in one shape; at least one threshold, two thresholds different;
    extra information whose expressions are text) returns one object that did
    not exist before, whose images are exactly the one image 'conjunction'; the
    objects that existed are unchanged. That image holds the per-voxel
    counts: the thresholds are in one of the four configurations, with its
    test [P], and the image has the shape of the source images and holds, at
    each voxel, the number of source images whose value there passes [P]. *)
Theorem conjunction_single_image (h : heap) (metas : list loc) (image_name : string)
    (lower_thr upper_thr : option Q) (expression : option string)
    (extra_info : list (string * Info.scalar)) (rows : list (list Q)) (n : nat) :
  metas ≠ [] →
  Forall2 (has_image h image_name) metas rows →
  Forall (λ img, length img = n) rows →
  valid_extra_info extra_info →
  valid_thresholds lower_thr upper_thr →
  ∃ r h' m counts comp_name P,
    conjunction py_str metas image_name lower_thr upper_thr expression extra_info h
    = (Ok r, h') ∧
    h !! r = None ∧
    h' !! r = Some (OMeta m) ∧
    (∀ l, is_Some (h !! l) → h' !! l = h !! l) ∧
    count_image py_str rows lower_thr upper_thr = Ok (counts, comp_name) ∧
    images m = {[ "conjunction" := Np.as_image counts ]} ∧
    size (images m) = 1 ∧
    criterion lower_thr upper_thr P ∧
    length (Np.as_image counts) = n ∧
    ∀ v, v < n →
      Np.as_image counts !! v = Some (inject_Z (Z.of_nat (count_at P v rows))).
Proof.
  intros Hne Hrows Hshape Hextra Hthr.
  destruct (valid_thresholds_criterion _ _ Hthr) as [P Hcrit].
  destruct (count_image_criterion rows _ _ P Hcrit) as [comp_name Hcount].
  destruct (result_pairs_Ok image_name comp_name extra_info Hextra) as [inf Hinit].
  destruct (conjunction_run h metas image_name lower_thr upper_thr expression extra_info
              rows _ comp_name inf Hne Hrows Hthr (array2_uniform rows n Hshape)
              Hcount Hinit)
    as (r & i & m0 & h' & Hrun & _ & Hr & Hi & _ & Hr' & _ & Hold).
  assert (rows ≠ []) as Hrows_ne.
  { intros ->. by apply Forall2_nil_inv_r in Hrows. }
  destruct (as_image_counts P n rows Hrows_ne Hshape) as [Hlen Hvox].
  exists r, h', (mk i (dataset m0)
                  {[ "conjunction" := Np.as_image (Np.sum_axis0 (map (map P) rows)) ]}),
    (Np.sum_axis0 (map (map P) rows)), comp_name, P.
  split_and!; [done | done | done | | done | done | apply map_size_singleton | done..].
  intros l [o Ho]. apply Hold; congruence.
Qed.
End Builtins.

Example conjunction_two_analyses :
  let run := conjunction (λ _, "0") [2; 3]%positive "pA" (Some 0%Q) None (Some "pain study") []
               two_analyses in
  run.1 = Ok 5%positive ∧
  run.2 !! 5%positive
  = Some (OMeta (mk 4%positive 7 {[ "conjunction" := [2; 0]%Q ]})) ∧
  run.2 !! 4%positive
  = Some (OInfo (Info.mk [("based on", Info.SStr "pA"); ("criterion", Info.SStr ">0")]
                         "pain_pA>0")).
Proof. vm_compute. done. Qed.

Lemma two_analyses_rows :
  Forall2 (has_image two_analyses "pA") [2; 3]%positive [[1; -1]; [2; -2]]%Q.
Proof. repeat constructor; eexists; split; reflexivity. Qed.

Lemma no_extra_info : valid_extra_info [].
Proof. split; intros v Hv; by apply elem_of_nil in Hv. Qed.

Lemma conjunction_rejects_thresholds_witness :
  conjunction (λ _, "0") [2; 3]%positive "pA" (Some (1 # 2)) (Some (2 # 4)) None [] two_analyses
  = (Raise (ValueError "Lower and upper thresholds must be different"), two_analyses).
Proof.
  apply (conjunction_rejects_thresholds (λ _, "0") two_analyses [2; 3]%positive "pA" None []).
  reflexivity.
Defined.

Lemma conjunction_counts_witness :
  ∃ r h' m img,
    conjunction (λ _, "0") [2; 3]%positive "pA" (Some 0%Q) None (Some "pain study") []
      two_analyses = (Ok r, h') ∧
    h' !! r = Some (OMeta m) ∧
    images m !! "conjunction" = Some img ∧
    Forall (λ src, length src = length img) [[1; -1]; [2; -2]]%Q ∧
    ∀ v, v < length img →
      img !! v = Some (inject_Z (Z.of_nat
                   (count_at (λ x, Np.Qlt_bool 0 x) v [[1; -1]; [2; -2]]%Q))).
Proof.
  destruct (conjunction_counts (λ _, "0") two_analyses [2; 3]%positive "pA" (Some 0%Q) None
              (Some "pain study") [] [[1; -1]; [2; -2]]%Q (λ x, Np.Qlt_bool 0 x))
    as [Hreturns Hcounts].
  - done.
  - exact two_analyses_rows.
  - constructor.
  - destruct (Hreturns 2) as (r & h' & Hrun).
    + by repeat constructor.
    + exact no_extra_info.
    + destruct (Hcounts r h' Hrun) as (m & img & Hm).
      exists r, h', m, img. split; [exact Hrun | exact Hm].
Defined.

Lemma conjunction_single_image_witness :
  ∃ r h' m counts comp_name P,
    conjunction (λ _, "0") [2; 3]%positive "pA" (Some 1%Q) (Some 0%Q) None [] two_analyses
    = (Ok r, h') ∧
    two_analyses !! r = None ∧
    h' !! r = Some (OMeta m) ∧
    (∀ l, is_Some (two_analyses !! l) → h' !! l = two_analyses !! l) ∧
    count_image (λ _, "0") [[1; -1]; [2; -2]]%Q (Some 1%Q) (Some 0%Q) = Ok (counts, comp_name) ∧
    images m = {[ "conjunction" := Np.as_image counts ]} ∧
    size (images m) = 1 ∧
    criterion (Some 1%Q) (Some 0%Q) P ∧
    length (Np.as_image counts) = 2 ∧
    ∀ v, v < 2 →
      Np.as_image counts !! v
      = Some (inject_Z (Z.of_nat (count_at P v [[1; -1]; [2; -2]]%Q))).
Proof.
  apply (conjunction_single_image (λ _, "0") two_analyses [2; 3]%positive "pA"
           (Some 1%Q) (Some 0%Q) None [] [[1; -1]; [2; -2]]%Q 2).
  - done.
  - exact two_analyses_rows.
  - by repeat constructor.
  - exact no_extra_info.
  - simpl. intros H. discriminate H.
Defined.

End ConjunctionFacts.

(** * Further properties *)

(** ** Short names *)

Module NamingExtras.
Import PyFacts NsInfoFacts.

Lemma char_in_append (c : ascii) (a b : string) :
  char_in c (a +:+ b) = char_in c a || char_in c b.
Proof.
  induction a as [|d a IH]; [done |].
  rewrite append_cons. simpl. rewrite IH. by destruct (Ascii.eqb c d).
Qed.

Lemma partition_char_absent (sep : ascii) (s : string) :
  char_in sep s = false → partition_char sep s = None.
Proof.
  induction s as [|c s IH]; simpl; [done |].
  rewrite Ascii.eqb_sym. destruct (Ascii.eqb c sep); [done |].
  intros Hs. by rewrite IH.
Qed.

Lemma lstrip_clean (chars s : string) :
  (∀ c, first_char s = Some c → char_in c chars = false) → lstrip chars s = s.
Proof. destruct s as [|c s]; simpl; [done |]. intros Hc. by rewrite (Hc c). Qed.

Lemma rstrip_clean (chars s : string) :
  (∀ c, last_char s = Some c → char_in c chars = false) → rstrip chars s = s.
Proof.
  induction s as [|c s IH]; simpl; [done |]. intros Hlast.
  destruct s as [|d s].
  - simpl. by rewrite (Hlast c).
  - rewrite IH; [done |]. exact Hlast.
Qed.

(** Stripping twice is stripping once. *)
Lemma strip_idempotent (chars s : string) :
  strip chars (strip chars s) = strip chars s.
Proof.
  destruct (strip_spec chars s) as (pre & post & _ & _ & _ & Hfirst & Hlast).
  unfold strip at 1. rewrite (lstrip_clean chars _ Hfirst). by apply rstrip_clean.
Qed.

(** What is left of a text after stripping has no character the text did
    not have. *)
Lemma strip_keeps_absent (chars s : string) (c : ascii) :
  char_in c s = false → char_in c (strip chars s) = false.
Proof.
  destruct (strip_spec chars s) as (pre & post & Hs & _). intros Hc.
  rewrite Hs, !char_in_append in Hc.
  by apply orb_false_iff in Hc as [_ [Hc _]%orb_false_iff].
Qed.

Lemma shorten_expr_no_space (expr short : string) :
  NsInfo.shorten_expr expr = Ok short → char_in " " short = false.
Proof.
  rewrite shorten_expr_Ok. intros [= <-].
  apply strip_keeps_absent. by destruct (first_field_spec " " expr).
Qed.

(** X1: a short name is its own short name: shortening is idempotent. *)
Theorem shorten_expr_idempotent (expr short : string) :
  NsInfo.shorten_expr expr = Ok short → NsInfo.shorten_expr short = Ok short.
Proof.
  intros Hshort. pose proof (shorten_expr_no_space _ _ Hshort) as Hsp.
  rewrite shorten_expr_Ok in Hshort. injection Hshort as <-.
  rewrite shorten_expr_Ok. unfold first_field at 1.
  rewrite (partition_char_absent _ _ Hsp). by rewrite strip_idempotent.
Qed.

Lemma shorten_expr_idempotent_witness :
  NsInfo.shorten_expr "social" = Ok "social".
Proof.
  apply (shorten_expr_idempotent "(social) cognition & emotion" "social"). reflexivity.
Defined.

(** X2: the name [get_shorthand] derives never contains a space, whatever
    the expressions are. *)
Theorem get_shorthand_no_space (info : Info.odict) (name : string) :
  Info.get_shorthand info = Ok name → char_in " " name = false.
Proof.
  unfold Info.get_shorthand.
  destruct (Info.od_get "expression" info) as [[e|q]|]; simpl; [| done | by intros [= <-]].
  destruct (NsInfo.shorten_expr e) as [a|] eqn:Ha; simpl; [| done].
  apply shorten_expr_no_space in Ha.
  destruct (Info.od_get "contrary expression" info) as [[c|q]|]; simpl;
    [| done | by intros [= <-]].
  destruct (NsInfo.shorten_expr c) as [b|] eqn:Hb; simpl; [| done].
  apply shorten_expr_no_space in Hb. intros [= <-].
  rewrite !char_in_append, Ha, Hb. reflexivity.
Qed.

Lemma get_shorthand_no_space_witness :
  char_in " " "social_vs_emotion" = false.
Proof.
  apply (get_shorthand_no_space
           [("expression", Info.SStr "social cognition");
            ("contrary expression", Info.SStr "(emotion) regulation")]).
  reflexivity.
Defined.

(** X3: [get_shorthand] raises only [AttributeError], and exactly when the
    'expression' entry is a number, or it is text and the 'contrary
    expression' entry is a number; without an 'expression' entry nothing is
    looked at and nothing raises. *)
Theorem get_shorthand_raises (info : Info.odict) :
  (∀ e, Info.get_shorthand info = Raise e → e = AttributeError "split") ∧
  ((∃ e, Info.get_shorthand info = Raise e) ↔
   (∃ q, Info.od_get "expression" info = Some (Info.SNum q)) ∨
   (∃ s q, Info.od_get "expression" info = Some (Info.SStr s) ∧
           Info.od_get "contrary expression" info = Some (Info.SNum q))).
Proof.
  unfold Info.get_shorthand.
  destruct (Info.od_get "expression" info) as [[s|q]|]; simpl.
  - rewrite shorten_expr_Ok. simpl.
    destruct (Info.od_get "contrary expression" info) as [[c|q]|]; simpl.
    + rewrite shorten_expr_Ok. simpl. split; [done |].
      split; [by intros [e He] | ]. intros [[q Hq] | (s' & q & _ & Hq)]; done.
    + split; [by intros e [= <-] |]. split; [eauto 10 | eauto].
    + split; [done |].
      split; [by intros [e He] | ]. intros [[q Hq] | (s' & q & _ & Hq)]; done.
  - split; [by intros e [= <-] |]. split; eauto.
  - split; [done |].
    split; [by intros [e He] | ]. intros [[q Hq] | (s' & q & Hs & _)]; done.
Qed.

End NamingExtras.

(** ** The entries of an [Info] and the reading of image names *)

Module InfoExtras.
Import Info InfoFacts.

Lemma od_get_app (key : string) (d : odict) (k : string) (v : scalar) :
  od_get key (d ++ [(k, v)])
  = match od_get key d with
    | Some w => Some w
    | None => if String.eqb k key then Some v else None
    end.
Proof.
  induction d as [|[k' w] d IH]; simpl; [done |].
  by destruct (String.eqb k' key).
Qed.

Lemma od_get_fold (key : string) (pairs : list (string * scalar)) :
  ∀ d, od_get key (fold_left (λ d kv, od_set kv.1 kv.2 d) pairs d)
       = match od_get key (rev pairs) with
         | Some v => Some v
         | None => od_get key d
         end.
Proof.
  induction pairs as [|[k v] pairs IH]; intros d; simpl; [done |].
  rewrite IH, od_get_app, od_get_od_set.
  destruct (od_get key (rev pairs)); [done |]. by destruct (String.eqb k key).
Qed.

Lemma od_get_None_keys (key : string) (d : odict) :
  od_get key d = None ↔ key ∉ d.*1.
Proof.
  induction d as [|[k w] d IH]; simpl.
  - split; [intros _; apply not_elem_of_nil | done].
  - rewrite not_elem_of_cons. destruct (String.eqb k key) eqn:Hk.
    + apply String.eqb_eq in Hk as ->. split; [done | by intros [? _]].
    + apply String.eqb_neq in Hk. rewrite IH. split; [by split | by intros [_ ?]].
Qed.

Lemma od_set_keys (key : string) (v : scalar) (d : odict) :
  (od_set key v d).*1
  = match od_get key d with
    | Some _ => d.*1
    | None => d.*1 ++ [key]
    end.
Proof.
  induction d as [|[k w] d IH]; [done |].
  cbn [od_set od_get]. destruct (String.eqb k key) eqn:Hk; [done |].
  rewrite !fmap_cons, IH. by destruct (od_get key d).
Qed.

Lemma od_set_NoDup (key : string) (v : scalar) (d : odict) :
  NoDup d.*1 → NoDup (od_set key v d).*1.
Proof.
  intros Hd. rewrite od_set_keys. destruct (od_get key d) eqn:Hget; [done |].
  apply NoDup_app. split_and!; [done | | apply NoDup_singleton].
  intros k Hk ->%list_elem_of_singleton. by apply od_get_None_keys in Hget.
Qed.

Lemma od_of_pairs_NoDup (pairs : list (string * scalar)) :
  NoDup (od_of_pairs pairs).*1.
Proof.
  unfold od_of_pairs.
  enough (∀ d : odict, NoDup d.*1 →
            NoDup (fold_left (λ d kv, od_set kv.1 kv.2 d) pairs d).*1) as Hgen.
  { apply Hgen. constructor. }
  induction pairs as [|[k v] pairs IH]; intros d Hd; simpl; [done |].
  apply IH. by apply od_set_NoDup.
Qed.

(** X4: [Info(pairs)] keeps one entry per key, holding the value of the
    last pair given for that key, and its name is the shorthand of those
    entries. *)
Theorem init_entries (pairs : list (string * scalar)) (i : Info.t) :
  init pairs = Ok i →
  NoDup (items i).*1 ∧
  (∀ key, od_get key (items i) = od_get key (rev pairs)) ∧
  get_shorthand (items i) = Ok (name i).
Proof.
  unfold init. destruct (get_shorthand (od_of_pairs pairs)) as [nm|] eqn:Hname; [| done].
  intros [= <-]. simpl. split_and!; [| | done].
  - apply od_of_pairs_NoDup.
  - intros key. unfold od_of_pairs. rewrite od_get_fold.
    by destruct (od_get key (rev pairs)).
Qed.

Lemma init_entries_witness :
  ∃ i, init [("expression", SStr "pain"); ("num_studies", SNum 10);
             ("num_studies", SNum 1000)] = Ok i ∧
       od_get "num_studies" (items i) = Some (SNum 1000) ∧ name i = "pain".
Proof.
  eexists. split; [reflexivity |].
  destruct (init_entries
              [("expression", SStr "pain"); ("num_studies", SNum 10);
               ("num_studies", SNum 1000)] _ eq_refl) as (_ & Hget & _).
  split; [by rewrite Hget | reflexivity].
Defined.

End InfoExtras.

Module ImgNameExtras.
Import ImgNameFacts.

Section Builtins.
Context (py_float : string → option Q).

(** X5: the family test is a substring test and the cut is by length. A
    name that is no base name and contains a prior-family prefix anywhere is
    read as a prior name, also when it carries an FDR prefix: the result is
    [float] of the name without its first 14 characters, under 'prior'. *)
Theorem get_num_prior_anywhere (image_name prior_name : string) :
  image_name ∉ NsInfo.img_names →
  prior_name ∈ NsInfo.prior_img_names →
  str_contains prior_name image_name = true →
  NsInfo.get_num_from_img_name py_float image_name
  = (num ← NsInfo.float py_float (slice_from 14 image_name); Ok {[ "prior" := num ]}).
Proof.
  intros Hbase Hprior Hin. unfold NsInfo.get_num_from_img_name.
  rewrite bool_decide_eq_false_2 by done.
  unfold NsInfo.prior_img_names in *. simpl.
  destruct (str_contains "pAgF_given_pF=" image_name) eqn:H1; [done |].
  destruct (str_contains "pFgA_given_pF=" image_name) eqn:H2; [done |].
  repeat (apply elem_of_cons in Hprior as [->|Hprior]); [congruence.. |].
  by apply elem_of_nil in Hprior.
Qed.
End Builtins.

Lemma get_num_prior_anywhere_witness :
  NsInfo.get_num_from_img_name sample_float "my_pAgF_given_pF=0.5_uniformity-test_z_FDR_0.01"
  = Raise (ValueError "could not convert string to float").
Proof.
  etrans.
  - apply (get_num_prior_anywhere sample_float _ "pAgF_given_pF=").
    + unfold NsInfo.img_names. rewrite !not_elem_of_cons.
      split_and!; [done.. | apply not_elem_of_nil].
    + unfold NsInfo.prior_img_names. repeat constructor.
    + reflexivity.
  - reflexivity.
Defined.

End ImgNameExtras.

(** ** Writing the images *)

Module OutputFacts.
Import MetaAnalysisPlus Output PyFacts NamingExtras.

Lemma lead_underscore_idempotent (s : string) :
  lead_underscore (lead_underscore s) = lead_underscore s.
Proof.
  destruct s as [|c s]; [done |]. simpl.
  destruct (Ascii.eqb c "_") eqn:Hc; simpl; by rewrite ?Hc.
Qed.

(** The name of the file written for image [img_name]. *)
Definition file_name (stem img_name postfix : string) : string :=
  add_underscore stem +:+ img_name +:+ lead_underscore postfix +:+ ".nii.gz".

(** The start of the file names: the prefix, or else the name of the
    analysis' [Info]. *)
Definition base_name (h : heap) (m : t) (prefix : option string) : option string :=
  match prefix with
  | Some p => Some p
  | None =>
      match h !! info m with
      | Some (OInfo i) => Some (Info.name i)
      | _ => None
      end
  end.

(** Whether [image_names] asks for an image. *)
Definition requested (image_names : option (list string)) (img_name : string) : Prop :=
  match image_names with
  | None => True
  | Some names => img_name ∈ names
  end.

Lemma selected_images_spec (image_names : option (list string))
    (images : gmap string (list Q)) (img_name : string) :
  img_name ∈ selected_images image_names images
  ↔ requested image_names img_name ∧ is_Some (images !! img_name).
Proof.
  destruct image_names as [names|]; simpl.
  - rewrite elem_of_elements, elem_of_intersection, elem_of_list_to_set, elem_of_dom. done.
  - rewrite list_elem_of_fmap. split.
    + intros ([k img] & -> & Hin%elem_of_map_to_list). split; [done | by exists img].
    + intros [_ [img Himg]]. exists (img_name, img). split; [done |].
      by apply elem_of_map_to_list.
Qed.


Section Builtins.
Context (path_join : string → string → string).

(** The loop as a whole: although [postfix] is reassigned in every round,
    every file gets the same ending. *)
Lemma save_loop_run (h : heap) (m : t) (prefix : option string) (stem outpath : string)
    (names : list string) :
  base_name h m prefix = Some stem →
  (∀ n, n ∈ names → is_Some (images m !! n)) →
  ∀ postfix,
    save_loop path_join m prefix outpath names postfix h
    = (Ok (map (λ n, (path_join outpath (file_name stem n postfix), images m !!! n)) names), h).
Proof.
  intros Hstem. induction names as [|n names IH]; intros Hnames postfix; [done |].
  assert ((match prefix with
           | Some p => mret p
           | None => i ← get_info (info m); mret (Info.name i)
           end : M string) h = (Ok stem, h)) as Hfile.
  { unfold base_name in Hstem. destruct prefix as [p|]; [by injection Hstem as -> |].
    unfold mbind, M_bind, get_info.
    destruct (h !! info m) as [[i|]|]; try done. by injection Hstem as <-. }
  destruct (Hnames n) as [img Himg]; [by left |].
  cbn [save_loop]. rewrite (MetaFacts.bind_run _ _ h h stem Hfile), Himg.
  rewrite (MetaFacts.bind_run _ _ h h img eq_refl).
  rewrite (MetaFacts.bind_run _ _ h h _ (IH (λ k Hk, Hnames k (list_elem_of_further _ _ _ Hk))
                                            (lead_underscore postfix))).
  cbn [map].
  rewrite (map_ext _ (λ k, (path_join outpath (file_name stem k postfix), images m !!! k))).
  2: { intros k. unfold file_name. by rewrite lead_underscore_idempotent. }
  rewrite (lookup_total_correct _ _ _ Himg). reflexivity.
Qed.

(** X6: [save_images] writes one file per image that is both requested and
    present (all images when no names are given), each holding that image
    under the composed name; names the analysis does not have are skipped
    without an error, and the heap is not changed. *)
Theorem save_images_writes (h : heap) (self : loc) (m : t) (prefix : option string)
    (postfix : string) (image_names : option (list string)) (outpath stem : string) :
  h !! self = Some (OMeta m) →
  base_name h m prefix = Some stem →
  ∃ writes,
    save_images path_join self prefix postfix image_names outpath h = (Ok writes, h) ∧
    ∀ path img,
      (path, img) ∈ writes ↔
      ∃ n, requested image_names n ∧ images m !! n = Some img ∧
           path = path_join outpath (file_name stem n postfix).
Proof.
  intros Hself Hstem. unfold save_images.
  rewrite (MetaFacts.bind_run _ _ h h m (MetaFacts.get_meta_run "images" h self m Hself)).
  rewrite (save_loop_run h m prefix stem outpath _ Hstem).
  2: { intros n Hn. by apply selected_images_spec in Hn as [_ Hn]. }
  eexists. split; [reflexivity |]. intros path img.
  change (map ?f ?l) with (f <$> l). rewrite list_elem_of_fmap. split.
  - intros (n & [= -> ->] & [Hreq [img' Himg]]%selected_images_spec).
    exists n. by rewrite (lookup_total_correct _ _ _ Himg).
  - intros (n & Hreq & Himg & ->). exists n.
    rewrite (lookup_total_correct _ _ _ Himg). split; [done |].
    apply selected_images_spec. eauto.
Qed.

Lemma append_inj_l (a b c : string) : a +:+ b = a +:+ c → b = c.
Proof. induction a as [|x a IH]; [done |]. rewrite !append_cons. intros [= ?]. auto. Qed.

Lemma append_length (a b : string) :
  String.length (a +:+ b) = String.length a + String.length b.
Proof. induction a as [|x a IH]; [done |]. rewrite append_cons. simpl. by rewrite IH. Qed.



(** X8: when none of the requested images exists, nothing is written and
    nothing is read: the call succeeds even without a usable [Info] name. *)
Theorem save_images_nothing_to_write (h : heap) (self : loc) (m : t)
    (prefix : option string) (postfix : string) (names : list string) (outpath : string) :
  h !! self = Some (OMeta m) →
  (∀ n, n ∈ names → images m !! n = None) →
  save_images path_join self prefix postfix (Some names) outpath h = (Ok [], h).
Proof.
  intros Hself Hnone. unfold save_images.
  rewrite (MetaFacts.bind_run _ _ h h m (MetaFacts.get_meta_run "images" h self m Hself)).
  assert (selected_images (Some names) (images m) = []) as ->; [| done].
  apply elem_of_nil_inv. intros n [Hreq [img Himg]]%selected_images_spec.
  simpl in Hreq. rewrite (Hnone n Hreq) in Himg. done.
Qed.
End Builtins.

(** [os.path.join] on a directory and a file name without separators. *)
Definition sample_join (outpath filename : string) : string :=
  outpath +:+ "/" +:+ filename.

Lemma sample_join_inj (outpath a b : string) :
  sample_join outpath a = sample_join outpath b → a = b.
Proof. unfold sample_join. by intros Heq%append_inj_l%append_inj_l. Qed.

Lemma save_images_writes_witness :
  let m := mk 1%positive 7 {[ "pA" := [1; -1]%Q ]} in
  ∃ writes,
    save_images sample_join 2%positive None "v1" (Some ["pA"; "pFgA"]) "out"
      MetaFacts.two_analyses = (Ok writes, MetaFacts.two_analyses) ∧
    ∀ path img,
      (path, img) ∈ writes ↔
      ∃ n, requested (Some ["pA"; "pFgA"]) n ∧
           images m !! n = Some img ∧
           path = sample_join "out" (file_name "pain" n "v1").
Proof.
  intros m.
  apply (save_images_writes sample_join MetaFacts.two_analyses 2%positive
           m None "v1" (Some ["pA"; "pFgA"]) "out" "pain"); reflexivity.
Defined.

(** [os.path.join(a, b)] of [posixpath]: a second component that starts
    with the separator replaces the first; otherwise it is appended, after a
    separator unless the first component is empty or ends with one. *)
Definition posix_join (a b : string) : string :=
  if String.prefix "/" b then b
  else match str_last a with
       | None => a +:+ b
       | Some c => if Ascii.eqb c "/" then a +:+ b else a +:+ "/" +:+ b
       end.



Definition clashing_images : heap :=
  {[ 1%positive := OInfo (Info.mk [("expression", Info.SStr "pain")] "pain");
     2%positive := OMeta (mk 1%positive 7 {[ "pA" := [1; -1]%Q; "/out/pA" := [2; -2]%Q ]}) ]}.

(** With an empty prefix, an image whose name starts with the separator is
    written to the path of another image: the first file is overwritten. *)
Example save_images_same_path :
  ∃ img1 img2,
    (save_images posix_join 2%positive (Some "") "" None "/out" clashing_images).1
    = Ok [("/out/pA.nii.gz", img1); ("/out/pA.nii.gz", img2)] ∧ img1 ≠ img2.
Proof. eexists _, _. split; [vm_compute; reflexivity | intros [=]]. Qed.



Lemma save_images_nothing_to_write_witness :
  save_images sample_join 2%positive None "" (Some ["pFgA"]) "out" MetaFacts.two_analyses
  = (Ok [], MetaFacts.two_analyses).
Proof.
  apply (save_images_nothing_to_write sample_join MetaFacts.two_analyses 2%positive
           (mk 1%positive 7 {[ "pA" := [1; -1]%Q ]})).
  - reflexivity.
  - intros n ->%list_elem_of_singleton. reflexivity.
Defined.

End OutputFacts.

(** ** The values of [mean] and its failures *)

Module MeanExtras.
Import MetaAnalysisPlus MetaFacts.





Lemma mapM_Ok_elem {A B} (f : A → M B) (l : list A) (h h' : heap) (res : list B) :
  (∀ x h0, (f x h0).2 = h0) →
  mapM f l h = (Ok res, h') →
  ∀ x, x ∈ l → ∃ y, f x h = (Ok y, h).
Proof.
  intros Hstate. revert res.
  induction l as [|a l IH]; intros res Hrun x Hx; [by apply elem_of_nil in Hx |].
  change (mapM f (a :: l)) with (y ← f a; k ← mapM f l; mret (y :: k)) in Hrun.
  unfold mbind, M_bind in Hrun. pose proof (Hstate a h) as Hs.
  destruct (f a h) as [[y|e] h1] eqn:Ha; simpl in Hs; subst h1; [| done].
  destruct (mapM f l h) as [[k|e] h2] eqn:Hl; [| done].
  apply elem_of_cons in Hx as [-> | Hx]; [by exists y |].
  unfold mret, M_ret in Hrun. injection Hrun as <- <-. by apply (IH k).
Qed.

Section Floats.
Context (np_add np_divide : Q → Q → Q).









(** X11: [mean] needs every image name of the first analysis in every
    analysis of the list: when one is missing somewhere, the call raises, and
    nothing is allocated. *)
Theorem mean_missing_image (h : heap) (first second : loc) (rest : list loc)
    (m0 m : t) (l : loc) (name : string) :
  h !! first = Some (OMeta m0) →
  l ∈ first :: second :: rest →
  h !! l = Some (OMeta m) →
  name ∈ dom (images m0) →
  images m !! name = None →
  ∃ e, mean np_add np_divide (first :: second :: rest) h = (Raise e, h).
Proof.
  intros Hfirst Hl Hm Hname Hnone. unfold mean.
  rewrite (bind_run _ _ h h m0 (get_meta_run "images" h first m0 Hfirst)).
  match goal with
  | |- context [mapM ?f ?keys] =>
      pose proof (mapM_state f keys
                    (mean_image_state np_add np_divide (first :: second :: rest)) h) as Hs;
      pose proof (mapM_Ok_elem f keys h) as Helem;
      destruct (mapM f keys h) as [[res|e] h1] eqn:Hres
  end; simpl in Hs; subst h1.
  - exfalso. destruct (Helem h res (mean_image_state np_add np_divide _) eq_refl name) as [y Hy].
    { apply elem_of_dom in Hname as [img Himg]. apply list_elem_of_fmap.
      exists (name, img). by rewrite elem_of_map_to_list. }
    unfold mbind at 1, M_bind at 1 in Hy.
    pose proof (mapM_state (get_image name) (first :: second :: rest)
                  (get_image_state name) h) as Hs.
    destruct (mapM (get_image name) (first :: second :: rest) h) as [[rows|e] h1] eqn:Hrows;
      [| done]. simpl in Hs. subst h1.
    destruct (mapM_Ok_elem _ _ _ _ _ (get_image_state name) Hrows l Hl) as [img Himg].
    unfold get_image in Himg.
    rewrite (bind_run _ _ h h m (get_meta_run "images" h l m Hm)), Hnone in Himg.
    discriminate Himg.
  - exists e. by rewrite (bind_raise _ _ h h e Hres).
Qed.

End Floats.





(** The second analysis lacks an image of the first. *)
Definition uneven_analyses : heap :=
  {[ 1%positive := OInfo (Info.mk [("expression", Info.SStr "pain")] "pain");
     2%positive := OMeta (mk 1%positive 7 {[ "pA" := [1; 3]%Q ]});
     3%positive := OMeta (mk 1%positive 7 {[ "pFgA" := [1; 3]%Q ]}) ]}.

Lemma mean_missing_image_witness :
  ∃ e, mean Qplus Qdiv [2; 3]%positive uneven_analyses = (Raise e, uneven_analyses).
Proof.
  apply (mean_missing_image Qplus Qdiv uneven_analyses 2%positive 3%positive []
           (mk 1%positive 7 {[ "pA" := [1; 3]%Q ]})
           (mk 1%positive 7 {[ "pFgA" := [1; 3]%Q ]}) 3%positive "pA").
  - reflexivity.
  - repeat constructor.
  - reflexivity.
  - apply elem_of_dom. by eexists.
  - reflexivity.
Defined.

End MeanExtras.

(** ** Failures of [conjunction] and relations between its counts *)

Module ConjunctionExtras.
Import MetaAnalysisPlus MetaFacts NpFacts InfoFacts ConjunctionFacts.

Lemma fold_add_bounded (rs : list (list bool)) :
  ∀ (acc : list nat) (bound : nat),
    (∀ v a, acc !! v = Some a → a ≤ bound) →
    ∀ v c, fold_left (zip_with Nat.add) (map (map Nat.b2n) rs) acc !! v = Some c →
           c ≤ bound + length rs.
Proof.
  induction rs as [|r rs IH]; intros acc bound Hacc v c; simpl.
  - intros Hc. specialize (Hacc v c Hc). lia.
  - intros Hc. apply (IH _ (S bound)) in Hc; [lia |].
    intros v' a'. rewrite lookup_zip_with.
    destruct (acc !! v') as [a|] eqn:Ha; [| done]. simpl.
    change (map Nat.b2n r) with (Nat.b2n <$> r). rewrite list_lookup_fmap.
    destruct (r !! v') as [b|]; [| done]. simpl. intros [= <-].
    specialize (Hacc v' a Ha). destruct b; simpl; lia.
Qed.

(** A column sum of tests is at most the number of rows. *)
Lemma sum_axis0_le (arr : list (list bool)) (v c : nat) :
  Np.sum_axis0 arr !! v = Some c → c ≤ length arr.
Proof.
  destruct arr as [|r rs]; [done |]. unfold Np.sum_axis0. intros Hc.
  apply (fold_add_bounded rs _ 1) in Hc; [simpl; lia |].
  intros v' a. change (map Nat.b2n r) with (Nat.b2n <$> r). rewrite list_lookup_fmap.
  destruct (r !! v') as [b|]; [| done]. simpl. intros [= <-]. destruct b; simpl; lia.
Qed.

(** Two tests that never hold together: the counts add up. *)
Lemma count_at_either (P1 P2 : Q → bool) (v : nat) (rows : list (list Q)) :
  (∀ x, P1 x && P2 x = false) →
  count_at (λ x, P1 x || P2 x) v rows = count_at P1 v rows + count_at P2 v rows.
Proof.
  intros Hdisj. unfold count_at, voxel_passes.
  induction rows as [|row rows IH]; [done |].
  simpl. destruct (row !! v) as [x|]; [| done].
  specialize (Hdisj x). destruct (P1 x), (P2 x); simpl in *; try done; lia.
Qed.

Section Builtins.
Context (py_str : Q → string).

(** X12: whatever the thresholds, every voxel count is at most the number
    of source images. *)
Theorem count_image_bounded (rows : list (list Q))
    (lower_thr upper_thr : option Q) (counts : list nat) (comp_name : string) :
  count_image py_str rows lower_thr upper_thr = Ok (counts, comp_name) →
  ∀ v c, counts !! v = Some c → c ≤ length rows.
Proof.
  intros Hcount v c Hc.
  assert (∃ arr, counts = Np.sum_axis0 arr ∧ length arr ≤ length rows) as (arr & -> & Hlen).
  { unfold count_image in Hcount.
    destruct upper_thr as [up|], lower_thr as [lo|]; [| | | done].
    - destruct (Np.Qlt_bool lo up); injection Hcount as <- _; eexists; (split; [done |]).
      + unfold Np.band, Np.gt, Np.lt. rewrite length_zip_with, !length_map. lia.
      + unfold Np.bor, Np.gt, Np.lt. rewrite length_zip_with, !length_map. lia.
    - injection Hcount as <- _. eexists. split; [done |]. unfold Np.lt. by rewrite length_map.
    - injection Hcount as <- _. eexists. split; [done |]. unfold Np.gt. by rewrite length_map. }
  apply sum_axis0_le in Hc. lia.
Qed.

(** X13: with both thresholds given and [upper_thr < lower_thr], the count
    at a voxel is the count above [lower_thr] plus the count below [upper_thr]
    there: no value passes both tests, so no image is counted twice. *)
Theorem count_image_tails (rows : list (list Q)) (n v : nat) (lo up : Q) :
  rows ≠ [] → Forall (λ r, length r = n) rows → v < n → (up < lo)%Q →
  ∃ above below either name_a name_b name_c a b c,
    count_image py_str rows (Some lo) None = Ok (above, name_a) ∧
    count_image py_str rows None (Some up) = Ok (below, name_b) ∧
    count_image py_str rows (Some lo) (Some up) = Ok (either, name_c) ∧
    above !! v = Some a ∧ below !! v = Some b ∧ either !! v = Some c ∧
    c = a + b.
Proof.
  intros Hne Hshape Hv Hgt.
  set (Pa := λ x, Np.Qlt_bool lo x). set (Pb := λ x, Np.Qlt_bool x up).
  destruct (sum_axis0_counts Pa n v Hv rows Hne Hshape) as [_ Ha].
  destruct (sum_axis0_counts Pb n v Hv rows Hne Hshape) as [_ Hb].
  destruct (sum_axis0_counts (λ x, Pa x || Pb x) n v Hv rows Hne Hshape) as [_ Hor].
  unfold count_image.
  assert (Np.Qlt_bool lo up = false) as ->.
  { apply not_true_iff_false. rewrite Qlt_bool_iff. intros Hlt.
    exact (Qlt_irrefl lo (Qlt_trans _ _ _ Hlt Hgt)). }
  rewrite bor_gt_lt. do 9 eexists.
  split_and!; [reflexivity | reflexivity | reflexivity | exact Ha | exact Hb | exact Hor |].
  apply count_at_either. intros x. unfold Pa, Pb.
  destruct (Np.Qlt_bool lo x) eqn:Hx; [| done]. simpl.
  apply not_true_iff_false. rewrite Qlt_bool_iff. apply Qlt_bool_iff in Hx.
  intros Hxu. apply (Qlt_irrefl x).
  apply (Qlt_trans _ up); [done |]. by apply (Qlt_trans _ lo).
Qed.

(** Reading the images stops at the first analysis without the image. *)
Lemma mapM_get_image_missing (h : heap) (name : string) (metas : list loc) :
  Forall (λ l, ∃ m, h !! l = Some (OMeta m)) metas →
  Exists (λ l, ∃ m, h !! l = Some (OMeta m) ∧ images m !! name = None) metas →
  mapM (get_image name) metas h = (Raise (KeyError name), h).
Proof.
  induction 1 as [|l metas [m Hm] _ IH]; intros Hex; [by apply Exists_nil in Hex |].
  change (mapM (get_image name) (l :: metas))
    with (y ← get_image name l; k ← mapM (get_image name) metas; mret (y :: k)).
  destruct (images m !! name) as [img|] eqn:Himg.
  - rewrite (bind_run _ _ h h img (get_image_run h name l img (ex_intro _ m (conj Hm Himg)))).
    apply Exists_cons in Hex as [(m' & Hm' & Hnone) | Hex]; [congruence |].
    by rewrite (bind_raise _ _ h h _ (IH Hex)).
  - apply bind_raise. unfold get_image.
    by rewrite (bind_run _ _ h h m (get_meta_run "images" h l m Hm)), Himg.
Qed.

(** X14: when an analysis of the list lacks the named image, [conjunction]
    raises [KeyError] for that name and allocates nothing. *)
Theorem conjunction_missing_image (h : heap) (metas : list loc) (image_name : string)
    (lower_thr upper_thr : option Q) (expression : option string)
    (extra_info : list (string * Info.scalar)) :
  valid_thresholds lower_thr upper_thr →
  Forall (λ l, ∃ m, h !! l = Some (OMeta m)) metas →
  Exists (λ l, ∃ m, h !! l = Some (OMeta m) ∧ images m !! image_name = None) metas →
  conjunction py_str metas image_name lower_thr upper_thr expression extra_info h
  = (Raise (KeyError image_name), h).
Proof.
  intros Hthr Hmetas Hmissing. unfold conjunction.
  destruct (thr_eqb_valid _ _ Hthr) as [-> ->].
  by rewrite (bind_raise _ _ h h _ (mapM_get_image_missing h image_name metas Hmetas Hmissing)).
Qed.

(** X15: on the empty list [conjunction] raises [IndexError], after the
    thresholds were accepted; the objects that existed are unchanged. *)
Theorem conjunction_empty_list (h : heap) (image_name : string)
    (lower_thr upper_thr : option Q) (expression : option string)
    (extra_info : list (string * Info.scalar)) :
  valid_thresholds lower_thr upper_thr →
  valid_extra_info extra_info →
  ∃ h', conjunction py_str [] image_name lower_thr upper_thr expression extra_info h
        = (Raise IndexError, h') ∧
        ∀ l, is_Some (h !! l) → h' !! l = h !! l.
Proof.
  intros Hthr Hextra. unfold conjunction.
  destruct (thr_eqb_valid _ _ Hthr) as [-> ->].
  destruct (count_image_valid py_str [] _ _ Hthr) as (counts & comp_name & Hcount).
  destruct (result_pairs_Ok image_name comp_name extra_info Hextra) as [inf Hinit].
  rewrite (bind_run (mapM (get_image image_name) []) _ h h [] eq_refl).
  rewrite (bind_run (lift (Np.array2 [])) _ h h [] eq_refl), Hcount.
  rewrite (bind_run (lift (Ok (counts, comp_name))) _ h h (counts, comp_name) eq_refl).
  change ([("based on", Info.SStr image_name); ("criterion", Info.SStr comp_name)] ++ extra_info)
    with (result_pairs image_name comp_name extra_info).
  destruct (truthy expression) as [e|].
  - set (i := fresh (dom h)).
    assert (h !! i = None) as Hi by apply fresh_unused.
    eexists. split.
    + erewrite bind_run.
      2: { erewrite bind_run.
           2: { unfold new_info, lift.
                rewrite (bind_run _ _ h h inf (f_equal (., h) Hinit)). reflexivity. }
           rewrite NsInfoFacts.shorten_expr_Ok.
           erewrite bind_run; [| reflexivity].
           erewrite bind_run; [reflexivity |].
           unfold set_name. fold i. rewrite lookup_insert_eq. reflexivity. }
      reflexivity.
    + intros l [o Ho]. rewrite insert_insert_eq, lookup_insert_ne; [done | congruence].
  - exists h. split; [reflexivity | done].
Qed.
End Builtins.

Lemma count_image_bounded_witness : 2 ≤ length [[1; -1]; [2; -2]]%Q.
Proof.
  apply (count_image_bounded (λ _, "0") [[1; -1]; [2; -2]]%Q (Some 0%Q) None [2; 0] ">0"
           eq_refl 0 2 eq_refl).
Defined.

Lemma count_image_tails_witness :
  ∃ above below either name_a name_b name_c a b c,
    count_image (λ _, "0") [[1; -1]; [2; -2]]%Q (Some 1%Q) None = Ok (above, name_a) ∧
    count_image (λ _, "0") [[1; -1]; [2; -2]]%Q None (Some 0%Q) = Ok (below, name_b) ∧
    count_image (λ _, "0") [[1; -1]; [2; -2]]%Q (Some 1%Q) (Some 0%Q) = Ok (either, name_c) ∧
    above !! 0 = Some a ∧ below !! 0 = Some b ∧ either !! 0 = Some c ∧
    c = a + b.
Proof.
  apply (count_image_tails (λ _, "0") [[1; -1]; [2; -2]]%Q 2 0 1%Q 0%Q).
  - done.
  - by repeat constructor.
  - lia.
  - reflexivity.
Defined.

Lemma conjunction_missing_image_witness :
  conjunction (λ _, "0") [2; 3]%positive "pA" (Some 0%Q) None None [] MeanExtras.uneven_analyses
  = (Raise (KeyError "pA"), MeanExtras.uneven_analyses).
Proof.
  apply (conjunction_missing_image (λ _, "0") MeanExtras.uneven_analyses).
  - done.
  - repeat constructor; eexists; reflexivity.
  - apply Exists_cons_tl, Exists_cons_hd. eexists. split; reflexivity.
Defined.

Lemma conjunction_empty_list_witness :
  ∃ h', conjunction (λ _, "0") [] "pA" (Some 0%Q) None (Some "pain") [] two_analyses
        = (Raise IndexError, h') ∧
        ∀ l, is_Some (two_analyses !! l) → h' !! l = two_analyses !! l.
Proof.
  apply (conjunction_empty_list (λ _, "0") two_analyses "pA" (Some 0%Q) None (Some "pain") []).
  - done.
  - exact no_extra_info.
Defined.

End ConjunctionExtras.

(** ** The label of a conjunction result, and its file *)

Module ConjunctionLabel.
Import MetaAnalysisPlus MetaFacts NpFacts InfoFacts ConjunctionFacts.

Lemma od_get_app_list (key : string) (d1 d2 : Info.odict) :
  Info.od_get key (d1 ++ d2)
  = match Info.od_get key d1 with
    | Some w => Some w
    | None => Info.od_get key d2
    end.
Proof.
  induction d1 as [|[k w] d1 IH]; simpl; [done |].
  by destruct (String.eqb k key).
Qed.

(** An entry [conjunction] sets is kept unless [extra_info] has the key. *)
Lemma od_get_result_pairs (key : string) (v : Info.scalar) (image_name comp_name : string)
    (extra_info : list (string * Info.scalar)) :
  key ∉ extra_info.*1 →
  Info.od_get key (rev [("based on", Info.SStr image_name);
                        ("criterion", Info.SStr comp_name)]) = Some v →
  Info.od_get key (Info.od_of_pairs (result_pairs image_name comp_name extra_info)) = Some v.
Proof.
  intros Hkey Hbase. unfold Info.od_of_pairs, result_pairs.
  rewrite InfoExtras.od_get_fold, rev_app_distr, od_get_app_list.
  assert (Info.od_get key (rev extra_info) = None) as ->.
  { apply InfoExtras.od_get_None_keys. intros ([k w] & -> & Hin)%list_elem_of_fmap.
    apply Hkey, list_elem_of_fmap. exists (k, w). split; [done |].
    by apply list_elem_of_In, in_rev, list_elem_of_In. }
  by rewrite Hbase.
Qed.

(** The name [conjunction] gives the [Info] of its result. *)
Definition label (expression : option string) (image_name comp_name : string)
    (inf : Info.t) : Info.t :=
  match truthy expression with
  | Some e =>
      Info.set_name (strip punctuation (NsInfoFacts.first_field " " e)
                       +:+ "_" +:+ image_name +:+ comp_name) inf
  | None => inf
  end.

Section Builtins.
Context (py_str : Q → string).

(** A run of [conjunction] to the end, with the [Info] it leaves behind. *)
Lemma conjunction_labelled (h : heap) (metas : list loc) (image_name : string)
    (lower_thr upper_thr : option Q) (expression : option string)
    (extra_info : list (string * Info.scalar)) (rows : list (list Q))
    (counts : list nat) (comp_name : string) (inf : Info.t) :
  metas ≠ [] →
  Forall2 (has_image h image_name) metas rows →
  valid_thresholds lower_thr upper_thr →
  Np.array2 rows = Ok rows →
  count_image py_str rows lower_thr upper_thr = Ok (counts, comp_name) →
  Info.init (result_pairs image_name comp_name extra_info) = Ok inf →
  ∃ r i m0 h',
    conjunction py_str metas image_name lower_thr upper_thr expression extra_info h
    = (Ok r, h') ∧
    head metas ≫= (h !!.) = Some (OMeta m0) ∧
    h' !! r = Some (OMeta (mk i (dataset m0) {[ "conjunction" := Np.as_image counts ]})) ∧
    h' !! i = Some (OInfo (label expression image_name comp_name inf)).
Proof.
  intros Hne Hrows Hthr Harr Hcount Hinit.
  destruct metas as [|first metas']; [done |]. clear Hne.
  pose proof Hrows as Hrows'. apply Forall2_cons_inv_l in Hrows'
    as (img0 & rows' & (m0 & Hfirst & _) & _ & _).
  set (pairs := result_pairs image_name comp_name extra_info) in *.
  unfold conjunction, label. destruct (thr_eqb_valid _ _ Hthr) as [-> ->].
  rewrite (bind_run _ _ h h rows (mapM_get_image h image_name _ rows Hrows)).
  unfold lift at 1 2. rewrite Harr.
  rewrite (bind_run _ _ h h rows eq_refl), Hcount.
  rewrite (bind_run _ _ h h (counts, comp_name) eq_refl).
  change ([("based on", Info.SStr image_name); ("criterion", Info.SStr comp_name)] ++ extra_info)
    with pairs.
  set (i := fresh (dom h)).
  assert (h !! i = None) as Hi by apply fresh_unused.
  assert (first ≠ i) as Hfi by congruence.
  assert (new_info pairs h = (Ok i, <[i := OInfo inf]> h)) as Hnew.
  { unfold new_info, lift. by rewrite (bind_run _ _ h h inf (f_equal (., h) Hinit)). }
  destruct (truthy expression) as [e|].
  - assert (∀ nm, set_name i nm (<[i := OInfo inf]> h)
                  = (Ok (), <[i := OInfo (Info.set_name nm inf)]> h)) as Hset.
    { intros nm. unfold set_name. by rewrite lookup_insert_eq, insert_insert_eq. }
    rewrite NsInfoFacts.shorten_expr_Ok.
    set (h1 := <[i := OInfo (Info.set_name
                   (strip punctuation (NsInfoFacts.first_field " " e) +:+ "_" +:+ image_name
                      +:+ comp_name) inf)]> h).
    set (r := fresh (dom h1)).
    assert (h1 !! r = None) as Hr by apply fresh_unused.
    assert (r ≠ i) as Hri.
    { intros Heq. rewrite Heq in Hr. unfold h1 in Hr. by rewrite lookup_insert_eq in Hr. }
    exists r, i, m0, (<[r := OMeta (mk i (dataset m0) {[ "conjunction" := Np.as_image counts ]})]> h1).
    split_and!; [| done | by rewrite lookup_insert_eq |].
    + erewrite bind_run; [| erewrite bind_run; [| exact Hnew];
                            erewrite bind_run; [| reflexivity];
                            erewrite bind_run; [| apply Hset]; reflexivity].
      erewrite bind_run; [| reflexivity].
      erewrite bind_run; [| apply get_meta_run; unfold h1; by rewrite lookup_insert_ne].
      reflexivity.
    + rewrite lookup_insert_ne by done. unfold h1. by rewrite lookup_insert_eq.
  - set (h1 := <[i := OInfo inf]> h) in *.
    set (r := fresh (dom h1)).
    assert (h1 !! r = None) as Hr by apply fresh_unused.
    assert (r ≠ i) as Hri.
    { intros Heq. rewrite Heq in Hr. unfold h1 in Hr. by rewrite lookup_insert_eq in Hr. }
    exists r, i, m0, (<[r := OMeta (mk i (dataset m0) {[ "conjunction" := Np.as_image counts ]})]> h1).
    split_and!; [| done | by rewrite lookup_insert_eq |].
    + erewrite bind_run; [| reflexivity].
      erewrite bind_run; [| reflexivity].
      erewrite bind_run; [| by apply get_meta_run].
      unfold new. erewrite bind_run; [| exact Hnew]. reflexivity.
    + rewrite lookup_insert_ne by done. unfold h1. by rewrite lookup_insert_eq.
Qed.

(** X16: the result of a valid call refers to the dataset of the first
    analysis and to an [Info] that records the source image under 'based on'
    and the criterion under 'criterion' (unless [extra_info] sets these keys
    itself). With an expression given, its name is the shortened expression,
    [_], the image name and the criterion; otherwise it is the shorthand of the
    entries. *)
Theorem conjunction_result_info (h : heap) (first : loc) (rest : list loc) (m0 : t)
    (image_name : string) (lower_thr upper_thr : option Q) (expression : option string)
    (extra_info : list (string * Info.scalar)) (rows : list (list Q)) (n : nat)
    (counts : list nat) (comp_name : string) :
  h !! first = Some (OMeta m0) →
  Forall2 (has_image h image_name) (first :: rest) rows →
  Forall (λ img, length img = n) rows →
  valid_extra_info extra_info →
  valid_thresholds lower_thr upper_thr →
  count_image py_str rows lower_thr upper_thr = Ok (counts, comp_name) →
  ∃ r h' m inf,
    conjunction py_str (first :: rest) image_name lower_thr upper_thr expression extra_info h
    = (Ok r, h') ∧
    h' !! r = Some (OMeta m) ∧ h' !! info m = Some (OInfo inf) ∧
    dataset m = dataset m0 ∧
    ("based on" ∉ extra_info.*1 →
       Info.od_get "based on" (Info.items inf) = Some (Info.SStr image_name)) ∧
    ("criterion" ∉ extra_info.*1 →
       Info.od_get "criterion" (Info.items inf) = Some (Info.SStr comp_name)) ∧
    (∀ e, truthy expression = Some e →
       ∃ short, NsInfo.shorten_expr e = Ok short ∧
                Info.name inf = short +:+ "_" +:+ image_name +:+ comp_name) ∧
    (truthy expression = None → Info.get_shorthand (Info.items inf) = Ok (Info.name inf)).
Proof.
  intros Hfirst Hrows Hshape Hextra Hthr Hcount.
  destruct Hextra as [He Hc].
  destruct (init_Ok (result_pairs image_name comp_name extra_info)) as (inf & Hinit & Hitems).
  { apply text_valued_app; [| done]. simpl.
    rewrite !not_elem_of_cons. split_and!; [done.. | apply not_elem_of_nil]. }
  { apply text_valued_app; [| done]. simpl.
    rewrite !not_elem_of_cons. split_and!; [done.. | apply not_elem_of_nil]. }
  destruct (conjunction_labelled h (first :: rest) image_name lower_thr upper_thr expression
              extra_info rows counts comp_name inf) as (r & i & m1 & h' & Hrun & Hm1 & Hr & Hi);
    [done | done | done | by apply (array2_uniform rows n) | done | done |].
  simpl in Hm1. rewrite Hfirst in Hm1. injection Hm1 as <-.
  assert (Info.items (label expression image_name comp_name inf)
          = Info.od_of_pairs (result_pairs image_name comp_name extra_info)) as Hlab.
  { unfold label. by destruct (truthy expression). }
  eexists r, h', _, _. split_and!; [exact Hrun | exact Hr | exact Hi | done | | | |].
  - intros Hkey. rewrite Hlab. by apply od_get_result_pairs.
  - intros Hkey. rewrite Hlab. by apply od_get_result_pairs.
  - intros e He'. unfold label. rewrite He'. simpl.
    eexists. split; [apply NsInfoFacts.shorten_expr_Ok | done].
  - intros Hnone. unfold label. rewrite Hnone.
    unfold Info.init in Hinit.
    destruct (Info.get_shorthand (Info.od_of_pairs _)) as [nm|] eqn:Hnm; [| done].
    injection Hinit as <-. done.
Qed.

(** X17: saving the result of a conjunction that was given an expression
    writes one file, named after the shortened expression, the source image and
    the criterion, then [conjunction], the postfix and [.nii.gz]; it holds the
    counts. *)
Theorem conjunction_then_save (path_join : string → string → string)
    (h : heap) (first : loc) (rest : list loc) (m0 : t)
    (image_name : string) (lower_thr upper_thr : option Q) (e : string)
    (extra_info : list (string * Info.scalar)) (rows : list (list Q)) (n : nat)
    (counts : list nat) (comp_name postfix outpath : string) :
  h !! first = Some (OMeta m0) →
  Forall2 (has_image h image_name) (first :: rest) rows →
  Forall (λ img, length img = n) rows →
  valid_extra_info extra_info →
  valid_thresholds lower_thr upper_thr →
  count_image py_str rows lower_thr upper_thr = Ok (counts, comp_name) →
  e ≠ "" →
  ∃ r h' short,
    conjunction py_str (first :: rest) image_name lower_thr upper_thr (Some e) extra_info h
    = (Ok r, h') ∧
    NsInfo.shorten_expr e = Ok short ∧
    Output.save_images path_join r None postfix None outpath h'
    = (Ok [(path_join outpath
              (OutputFacts.file_name (short +:+ "_" +:+ image_name +:+ comp_name)
                 "conjunction" postfix),
            Np.as_image counts)], h').
Proof.
  intros Hfirst Hrows Hshape Hextra Hthr Hcount He.
  destruct (result_pairs_Ok image_name comp_name extra_info Hextra) as [inf Hinit].
  destruct (conjunction_labelled h (first :: rest) image_name lower_thr upper_thr (Some e)
              extra_info rows counts comp_name inf) as (r & i & m1 & h' & Hrun & _ & Hr & Hi);
    [done | done | done | by apply (array2_uniform rows n) | done | done |].
  exists r, h', (strip punctuation (NsInfoFacts.first_field " " e)).
  split_and!; [exact Hrun | apply NsInfoFacts.shorten_expr_Ok |].
  unfold Output.save_images.
  rewrite (bind_run _ _ h' h' _ (get_meta_run "images" h' r _ Hr)).
  cbn [images Output.selected_images]. rewrite map_to_list_singleton.
  rewrite (OutputFacts.save_loop_run path_join h' _ None
             (strip punctuation (NsInfoFacts.first_field " " e)
                +:+ "_" +:+ image_name +:+ comp_name) outpath).
  - cbn [map fmap list_fmap fst images]. by rewrite lookup_total_singleton.
  - unfold OutputFacts.base_name. cbn [info]. rewrite Hi. unfold label.
    by destruct e.
  - intros k ->%list_elem_of_singleton. by eexists.
Qed.
End Builtins.

Lemma conjunction_result_info_witness :
  ∃ r h' m inf,
    conjunction (λ _, "0") [2; 3]%positive "pA" (Some 0%Q) None (Some "pain study")
      [("num_studies", Info.SNum 2)] two_analyses = (Ok r, h') ∧
    h' !! r = Some (OMeta m) ∧ h' !! info m = Some (OInfo inf) ∧
    dataset m = 7 ∧
    Info.od_get "based on" (Info.items inf) = Some (Info.SStr "pA") ∧
    Info.name inf = "pain_pA>0".
Proof.
  destruct (conjunction_result_info (λ _, "0") two_analyses 2%positive [3%positive]
              (mk 1%positive 7 {[ "pA" := [1; -1]%Q ]}) "pA" (Some 0%Q) None
              (Some "pain study") [("num_studies", Info.SNum 2)] [[1; -1]; [2; -2]]%Q 2
              [2; 0] ">0")
    as (r & h' & m & inf & Hrun & Hr & Hinf & Hds & Hbased & _ & Hname & _).
  - reflexivity.
  - exact two_analyses_rows.
  - by repeat constructor.
  - split; intros v Hv%list_elem_of_singleton; discriminate Hv.
  - done.
  - reflexivity.
  - exists r, h', m, inf. split_and!; [done | done | done | done | |].
    + apply Hbased. simpl. rewrite list_elem_of_singleton. discriminate.
    + destruct (Hname "pain study" eq_refl) as (short & Hshort & ->).
      rewrite NsInfoFacts.shorten_expr_Ok in Hshort. by injection Hshort as <-.
Defined.

Lemma conjunction_then_save_witness :
  ∃ r h' short,
    conjunction (λ _, "0") [2; 3]%positive "pA" (Some 0%Q) None (Some "pain study") []
      two_analyses = (Ok r, h') ∧
    NsInfo.shorten_expr "pain study" = Ok short ∧
    Output.save_images OutputFacts.sample_join r None "" None "out" h'
    = (Ok [(OutputFacts.sample_join "out"
              (OutputFacts.file_name (short +:+ "_" +:+ "pA" +:+ ">0") "conjunction" ""),
            Np.as_image [2; 0])], h').
Proof.
  apply (conjunction_then_save (λ _, "0") OutputFacts.sample_join two_analyses 2%positive
           [3%positive] (mk 1%positive 7 {[ "pA" := [1; -1]%Q ]}) "pA" (Some 0%Q) None
           "pain study" [] [[1; -1]; [2; -2]]%Q 2 [2; 0] ">0" "" "out").
  - reflexivity.
  - exact two_analyses_rows.
  - by repeat constructor.
  - exact no_extra_info.
  - done.
  - reflexivity.
  - discriminate.
Defined.

End ConjunctionLabel.

(** ** The status bar over time *)

Module GlobalExtras.
Import Global PyFacts.

Lemma length_spaces (n : nat) : String.length (spaces n) = n.
Proof. induction n as [|n IH]; simpl; [done | by rewrite IH]. Qed.

Lemma length_ljust (width : nat) (s : string) :
  String.length s ≤ width → String.length (ljust width s) = width.
Proof.
  intros Hs. unfold ljust. rewrite OutputFacts.append_length, length_spaces. lia.
Qed.

Lemma length_slice_to (n : nat) (s : string) :
  n ≤ String.length s → String.length (slice_to n s) = n.
Proof.
  revert s. induction n as [|n IH]; intros [|c s] Hs; simpl in *; try done; [lia |].
  rewrite IH; [done | lia].
Qed.

(** The text of the label is cut or padded to the width of the bar. *)
Lemma _update_status_label (new_status : string) (ready error : bool) (self : t) :
  3 ≤ text_width self →
  String.length (label_text (_update_status new_status ready error self)) = text_width self.
Proof.
  intros Hw. unfold _update_status. simpl.
  destruct (Nat.ltb (text_width self) (String.length new_status)) eqn:Hlong.
  - apply Nat.ltb_lt in Hlong.
    rewrite OutputFacts.append_length, length_slice_to; simpl; lia.
  - apply Nat.ltb_ge in Hlong. by apply length_ljust.
Qed.

(** The colour the label has for the two flags. *)
Definition colour (error ready : bool) : string :=
  if error then "#ff0000" else if ready then "#90ee90" else "#e3e3e3".

(** What can happen to the status: a call of [update_status], or the event
    loop running a callback that is waiting. *)
Inductive step : t → t → Prop :=
| step_update new_status ready error user_op s :
    step s (update_status new_status ready error user_op s).2
| step_timer tm s :
    tm ∈ timers s → step s (fire tm s).

(** What holds in every state the application reaches. *)
Record consistent (s : t) : Prop := {
  width_fixed : text_width s = 80;
  label_fits : String.length (label_text s) = 80;
  timers_delay : Forall (λ tm, delay_ms tm = 2000) (timers s);
  shown :
    s = init ∨
    (last (history s) = Some (status s) ∧ label_fg s = colour (has_error s) (is_ready s))
}.

Lemma _update_status_consistent (new_status : string) (ready error : bool) (s : t) :
  consistent s →
  (error = false → ready = is_ready s) →
  consistent (_update_status new_status ready error s).
Proof.
  intros [Hw Hl Ht Hs] Hready. split.
  - done.
  - rewrite _update_status_label; [done | lia].
  - done.
  - right. simpl. rewrite last_snoc. split; [done |].
    unfold colour. destruct error; [done |]. by rewrite <- Hready.
Qed.

Lemma step_consistent (s s' : t) : consistent s → step s s' → consistent s'.
Proof.
  intros Hs Hstep. revert Hs.
  destruct Hstep as [new_status ready error user_op s0 | tm s0 Htm]; intros Hs.
  - unfold update_status. destruct (negb user_op || is_ready s0) eqn:Hgo; simpl.
    + pose proof Hs as [Hw Hl Ht _]. split.
      * done.
      * unfold set_is_ready. cbn [label_text].
        rewrite _update_status_label; [done | lia].
      * done.
      * right. simpl. rewrite last_snoc. done.
    + apply orb_false_iff in Hgo as [_ Hbusy].
      destruct (_update_status_consistent busy_warning false true s0 Hs) as [Hw Hl Ht Hshown];
        [done |].
      split; simpl; [done | done | |].
      * apply Forall_app. split; [by destruct Hs | by repeat constructor].
      * right. destruct Hshown as [Hinit | Hpair]; [| exact Hpair].
        apply (f_equal history) in Hinit. simpl in Hinit. by destruct (history s0).
  - unfold fire, back_to_prev. destruct (is_ready s0) eqn:Hready; simpl; [done |].
    apply _update_status_consistent; [done |]. by rewrite Hready.
Qed.

Lemma rtc_consistent (s0 s : t) : rtc step s0 s → consistent s0 → consistent s.
Proof.
  induction 1 as [s0 | s0 s1 s2 Hstep _ IH]; [done |].
  intros Hs0. by apply IH, (step_consistent s0).
Qed.

(** X18: in every state reached from the initial one by calls of
    [update_status] and by callbacks, the label is exactly 80 characters wide,
    every waiting callback has the delay 2000, and, once a status was set, the
    status is the last entry of the history and the colour tells the flags: red
    for an error, else green when ready, else grey. *)
Theorem reachable_consistent (s : t) : rtc step init s → consistent s.
Proof.
  intros Hreach. apply (rtc_consistent init s Hreach).
  split; [done | reflexivity | constructor | by left].
Qed.

Lemma reachable_consistent_witness :
  consistent (update_status "Analyze" false false true
                (update_status "Loading database..." false false false init).2).2.
Proof.
  apply reachable_consistent.
  eapply rtc_l; [apply step_update |]. eapply rtc_l; [apply step_update |]. done.
Defined.

(** X19: a second user request that is declined before the first callback
    has run saves the warning as the status to go back to. After the first
    callback the status bar shows the status from before the requests, but when
    both callbacks have run (the app still busy), the status is the warning
    again, flagged as an error, and the status bar shows the warning in red:
    the warning stays until the next status is set. *)
Theorem two_declined_requests (self : t) (status1 status2 : string)
    (ready1 error1 ready2 error2 : bool) :
  is_ready self = false →
  let s1 := (update_status status1 ready1 error1 true self).2 in
  let s2 := (update_status status2 ready2 error2 true s1).2 in
  ∃ tm1 tm2,
    timers s2 = timers self ++ [tm1; tm2] ∧
    delay_ms tm1 = 2000 ∧ delay_ms tm2 = 2000 ∧
    prev_status tm1 = status self ∧ prev_status tm2 = busy_warning ∧
    label_text s2 = GlobalFacts.statusbar_text (text_width self) busy_warning ∧
    label_fg s2 = "#ff0000" ∧
    status (fire tm1 s2) = status self ∧
    label_text (fire tm1 s2) = GlobalFacts.statusbar_text (text_width self) (status self) ∧
    status (fire tm2 (fire tm1 s2)) = busy_warning ∧
    has_error (fire tm2 (fire tm1 s2)) = true ∧
    is_ready (fire tm2 (fire tm1 s2)) = false ∧
    label_text (fire tm2 (fire tm1 s2))
    = GlobalFacts.statusbar_text (text_width self) busy_warning ∧
    label_fg (fire tm2 (fire tm1 s2)) = "#ff0000" ∧
    history (fire tm2 (fire tm1 s2))
    = history self ++ [busy_warning; busy_warning; status self; busy_warning].
Proof.
  intros Hbusy s1 s2. subst s1 s2.
  rewrite (GlobalFacts.update_status_user_busy status1 ready1 error1 self Hbusy). simpl.
  rewrite GlobalFacts.update_status_user_busy by done. simpl.
  eexists _, _. split_and!; [by rewrite <- app_assoc | ..].
  all: unfold fire, back_to_prev; simpl; rewrite ?Hbusy; simpl; rewrite ?Hbusy; simpl.
  all: rewrite <- ?app_assoc; done.
Qed.

Lemma two_declined_requests_witness :
  let s1 := (update_status "Analyze" false false true init).2 in
  let s2 := (update_status "Compare" false false true s1).2 in
  ∃ tm1 tm2,
    timers s2 = timers init ++ [tm1; tm2] ∧
    delay_ms tm1 = 2000 ∧ delay_ms tm2 = 2000 ∧
    prev_status tm1 = status init ∧ prev_status tm2 = busy_warning ∧
    label_text s2 = GlobalFacts.statusbar_text (text_width init) busy_warning ∧
    label_fg s2 = "#ff0000" ∧
    status (fire tm1 s2) = status init ∧
    label_text (fire tm1 s2) = GlobalFacts.statusbar_text (text_width init) (status init) ∧
    status (fire tm2 (fire tm1 s2)) = busy_warning ∧
    has_error (fire tm2 (fire tm1 s2)) = true ∧
    is_ready (fire tm2 (fire tm1 s2)) = false ∧
    label_text (fire tm2 (fire tm1 s2))
    = GlobalFacts.statusbar_text (text_width init) busy_warning ∧
    label_fg (fire tm2 (fire tm1 s2)) = "#ff0000" ∧
    history (fire tm2 (fire tm1 s2))
    = history init ++ [busy_warning; busy_warning; status init; busy_warning].
Proof.
  apply (two_declined_requests init "Analyze" "Compare" false false false false).
  reflexivity.
Defined.

End GlobalExtras.

(** ** Errors, loading, and the one instance *)

Module AppFacts.
Import Global App.

Section Builtins.
Context (str_exn : exn → string).

(** X20: whatever the state before, also while a task is running,
    [load_pkl_database] leaves the app ready, with no callback queued and the
    status the last entry of the history. When loading succeeds and the event
    is generated, the status is 'Ready' without error, the handle is stored and
    the history has two more entries. When loading succeeds but generating the
    event raises (there is no root window, say), the handle is stored all the
    same, no event is generated, one dialog is shown, the status is the error
    text, flagged, and the history has three more entries, 'Ready' among them.
    When loading raises, the status is the error text, flagged, one dialog is
    shown, and the dataset and the events are as before. *)
Theorem load_pkl_database_ready (load : result nat) (generate : result unit) (self : t) :
  let after := load_pkl_database str_exn load generate self in
  is_ready (glob after) = true ∧
  timers (glob after) = timers (glob self) ∧
  last (history (glob after)) = Some (status (glob after)) ∧
  (∀ d, load = Ok d → generate = Ok () →
     status (glob after) = "Ready" ∧ has_error (glob after) = false ∧
     label_fg (glob after) = "#90ee90" ∧
     dataset after = Some d ∧
     events after = events self ++ ["<<Database_loaded>>"] ∧
     dialogs after = dialogs self ∧
     history (glob after) = history (glob self) ++ ["Loading database..."; "Ready"]) ∧
  (∀ d e, load = Ok d → generate = Raise e →
     status (glob after) = "Error: failed to load database. " +:+ str_exn e ∧
     has_error (glob after) = true ∧
     label_fg (glob after) = "#ff0000" ∧
     dataset after = Some d ∧
     events after = events self ∧
     dialogs after = dialogs self ++ [("Error: failed to load database", str_exn e)] ∧
     history (glob after)
     = history (glob self) ++ ["Loading database..."; "Ready";
                               "Error: failed to load database. " +:+ str_exn e]) ∧
  (∀ e, load = Raise e →
     status (glob after) = "Error: failed to load database. " +:+ str_exn e ∧
     has_error (glob after) = true ∧
     label_fg (glob after) = "#ff0000" ∧
     dataset after = dataset self ∧ events after = events self ∧
     dialogs after = dialogs self ++ [("Error: failed to load database", str_exn e)] ∧
     history (glob after)
     = history (glob self) ++ ["Loading database...";
                               "Error: failed to load database. " +:+ str_exn e]).
Proof.
  destruct load as [d|e], generate as [[]|e']; simpl.
  all: split_and!; [done | done | by rewrite last_snoc | | |].
  all: intros; simplify_eq; rewrite <- ?app_assoc; done.
Qed.

(** [show_error] passes the exception on and leaves the app ready and
    flagged, with the error text as status, whatever the state before. *)
Theorem show_error_ready (exception : exn) (self : t) :
  let r := show_error str_exn exception self in
  r.1 = Raise exception ∧
  is_ready (glob r.2) = true ∧ has_error (glob r.2) = true ∧
  status (glob r.2) = "Error: " +:+ str_exn exception ∧
  label_fg (glob r.2) = "#ff0000" ∧
  timers (glob r.2) = timers (glob self) ∧
  dataset r.2 = dataset self.
Proof. done. Qed.
End Builtins.

(** Without a root window the load succeeds and is reported as failed. *)
Example load_pkl_database_no_root :
  let str_exn := λ _ : exn, "'NoneType' object has no attribute 'event_generate'" in
  let after := load_pkl_database str_exn (Ok 7) (Raise (AttributeError "event_generate"))
                 (mk init None [] []) in
  dataset after = Some 7 ∧ events after = [] ∧
  is_ready (glob after) = true ∧ has_error (glob after) = true ∧
  history (glob after)
  = ["Loading database..."; "Ready";
     "Error: failed to load database. 'NoneType' object has no attribute 'event_generate'"] ∧
  dialogs after
  = [("Error: failed to load database",
      "'NoneType' object has no attribute 'event_generate'")].
Proof. done. Qed.

End AppFacts.

Module SingletonFacts.
Import Singleton.

Section Call.
Context {Cls : Type} `{Countable Cls} {Inst Args World : Type}.
Context (construct : Cls → Args → World → result Inst * World).

(** X21: once a call for a class has returned an instance, every later call
    for that class returns that same instance, whatever the arguments, without
    running the constructor: the registry and the rest of the program state
    stay as they are. The first call leaves the instances of other classes
    alone. *)
Theorem call_once (cls : Cls) (args : Args) (instances instances' : gmap Cls Inst)
    (w w' : World) (inst : Inst) :
  call construct cls args instances w = (Ok inst, instances', w') →
  (∀ args2 w2, call construct cls args2 instances' w2 = (Ok inst, instances', w2)) ∧
  (∀ other, other ≠ cls → instances' !! other = instances !! other).
Proof.
  unfold call. destruct (instances !! cls) as [old|] eqn:Hold.
  - intros [= <- <- <-]. split; [| done]. intros args2 w2. by rewrite Hold.
  - destruct (construct cls args w) as [[new|e] w1]; [| done].
    intros [= <- <- <-]. split.
    + intros args2 w2. by rewrite lookup_insert_eq.
    + intros other Hother. by rewrite lookup_insert_ne.
Qed.

(** A construction that raises registers nothing, so the next call
    constructs again. *)
Theorem call_failed (cls : Cls) (args : Args) (instances instances' : gmap Cls Inst)
    (w w' : World) (e : exn) :
  call construct cls args instances w = (Raise e, instances', w') →
  instances' = instances ∧ instances !! cls = None ∧
  construct cls args w = (Raise e, w').
Proof.
  unfold call. destruct (instances !! cls) as [old|]; [done |].
  destruct (construct cls args w) as [[new|e'] w1]; [done |].
  by intros [= <- <- <-].
Qed.
End Call.

(** A constructor that counts its runs and fails on the argument 0. *)
Definition sample_construct (cls : string) (arg : nat) (runs : nat) : result nat * nat :=
  match arg with
  | O => (Raise (ValueError "no root window"), S runs)
  | S _ => (Ok arg, S runs)
  end.

Lemma call_once_witness :
  (∀ args2 w2, call sample_construct "Global" args2 {[ "Global" := 5 ]} w2
               = (Ok 5, {[ "Global" := 5 ]}, w2)) ∧
  (∀ other, other ≠ "Global" →
     ({[ "Global" := 5 ]} : gmap string nat) !! other = (∅ : gmap string nat) !! other).
Proof.
  apply (call_once sample_construct "Global" 5 ∅ _ 0 1 5). reflexivity.
Defined.

Lemma call_failed_witness :
  (∅ : gmap string nat) = ∅ ∧ (∅ : gmap string nat) !! "Global" = None ∧
  sample_construct "Global" 0 3 = (Raise (ValueError "no root window"), 4).
Proof.
  apply (call_failed sample_construct "Global" 0 ∅ ∅ 3 4). reflexivity.
Defined.

End SingletonFacts.

(** ** Sharing of the [Info] between [mean]'s result and its first argument *)

Module AliasExtras.
Import MetaAnalysisPlus MetaFacts.

(** X22: the object [mean] returns for two or more analyses holds the very
    [Info] object of the first analysis. Renaming the result through
    [set_name] therefore renames the first analysis as well. *)
Theorem mean_shares_info (np_add np_divide : Q → Q → Q) (h h' : heap)
    (first second : loc) (rest : list loc)
    (m0 : t) (i : Info.t) (r : loc) (new_name : string) :
  h !! first = Some (OMeta m0) →
  h !! info m0 = Some (OInfo i) →
  mean np_add np_divide (first :: second :: rest) h = (Ok r, h') →
  ∃ m' h'',
    h' !! r = Some (OMeta m') ∧ r ≠ first ∧ info m' = info m0 ∧
    set_name (info m') new_name h' = (Ok (), h'') ∧
    h'' !! first = Some (OMeta m0) ∧
    h'' !! info m0 = Some (OInfo (Info.set_name new_name i)).
Proof.
  intros Hfirst Hinfo. unfold mean.
  rewrite (bind_run _ _ h h m0 (get_meta_run "images" h first m0 Hfirst)).
  match goal with
  | |- context [mapM ?f ?keys] =>
      pose proof (mapM_keyed_inv f keys h) as Hinv;
      destruct (mapM f keys h) as [[res|e] h1] eqn:Hres
  end.
  2: { by rewrite (bind_raise _ _ h h1 e Hres). }
  destruct (Hinv res h1) as [-> _]; [apply mean_image_state | apply mean_image_key | done |].
  rewrite (bind_run _ _ h h res Hres). unfold new.
  intros [= <- <-].
  pose proof (fresh_unused h) as Hr.
  assert (fresh (dom h) ≠ first) as Hrf by congruence.
  assert (fresh (dom h) ≠ info m0) as Hri by congruence.
  assert (info m0 ≠ first) as Hif by congruence.
  eexists _, _. split_and!.
  - apply lookup_insert_eq.
  - done.
  - reflexivity.
  - unfold set_name. cbn [info]. rewrite lookup_insert_ne by done. rewrite Hinfo. reflexivity.
  - rewrite !lookup_insert_ne by done. done.
  - by rewrite lookup_insert_eq.
Qed.

Lemma mean_shares_info_witness :
  ∃ m' h'',
    (mean Qplus Qdiv [2; 3]%positive two_analyses).2 !! 4%positive = Some (OMeta m') ∧
    4%positive ≠ 2%positive ∧ info m' = 1%positive ∧
    set_name (info m') "average" (mean Qplus Qdiv [2; 3]%positive two_analyses).2 = (Ok (), h'') ∧
    h'' !! 2%positive = Some (OMeta (mk 1%positive 7 {[ "pA" := [1; -1]%Q ]})) ∧
    h'' !! 1%positive
    = Some (OInfo (Info.set_name "average"
                     (Info.mk [("expression", Info.SStr "pain")] "pain"))).
Proof.
  apply (mean_shares_info Qplus Qdiv two_analyses _ 2%positive 3%positive []
           (mk 1%positive 7 {[ "pA" := [1; -1]%Q ]})
           (Info.mk [("expression", Info.SStr "pain")] "pain") 4%positive "average").
  - reflexivity.
  - reflexivity.
  - vm_compute. reflexivity.
Defined.

End AliasExtras.
